(** * stateparser: a backtracking parser-combinator engine

    Shallow embedding of [parser.go] (package [stateparser]) and the
    properties of its combinators and match-tree helpers.

    Conventions of the embedding.
    - A Go [string] is a Rocq [string] and a [rune] is an [ascii]: the model
      covers single-byte text, where [[]rune(text)] is the list of the bytes
      of [text] and [string([]rune{r})] is the one-character string.
    - A Go [error] is a value of [error]: one constructor per place where the
      package builds an error, carrying the arguments of the format.
    - A value of type [interface{}] returned by a grammar is a [Match].
    - A [Grammar] is a function from the cursor to an [outcome]: the pair
      [(interface{}, error)] it returns together with the cursor after the
      call, or a run-time panic.
    - [Set], [Require] and [String] are [Set_], [Require_] and [String_]
      here, the plain names being taken. *)

From Stdlib Require Import String Ascii List ZArith NArith PArith Bool Lia.
Import ListNotations.

Local Open Scope string_scope.
Local Open Scope list_scope.
Set Warnings "-register-all".

(** ** Data model *)

Definition rune : Type := ascii.

(** [error]: the error values that flow through the package.
    - [errorString msg]: an error made outside the package, known by its
      message: what [ReadRune] returns (for instance [io.EOF]) and what a
      [Node] transform may return;
    - [errSet set s]: the error [Set] formats from the escaped [set] and
      the text [s] it got;
    - [errLit r rr]: the error [Lit] formats from the rune [r] it expected
      and the rune [rr] it got;
    - [errOr errs]: the error [Or] formats from the slice [errs] of the
      errors it collected;
    - [fatalError err]: the struct [fatalError{err}]. *)
Inductive error : Type :=
| errorString (msg : string)
| errSet (set s : string)
| errLit (r rr : rune)
| errOr (errs : list error)
| fatalError (err : error).

(** [_, isFE := err.(fatalError)] *)
Definition isFE (err : error) : bool :=
  match err with
  | fatalError _ => true
  | _ => false
  end.

(** [Match]: the dynamic values ([interface{}]) a grammar returns.
    [Nil] is the nil interface, [Str] a [string], [Slice] a [[]interface{}],
    [TaggedMatch m tag] the struct [TaggedMatch{Match: m, Tag: tag}], and
    [Value v] any value of another dynamic type (what a [Node] transform
    builds), known by a label. *)
Inductive Match : Type :=
| Nil
| Str (s : string)
| Slice (ms : list Match)
| TaggedMatch (m : Match) (tag : string)
| Value (v : string).

(** Induction over match trees that reaches the elements of a [Slice]. *)
Section MatchInduction.
Variable P : Match -> Prop.
Hypothesis HNil : P Nil.
Hypothesis HStr : forall s, P (Str s).
Hypothesis HSlice : forall ms, Forall P ms -> P (Slice ms).
Hypothesis HTagged : forall m tag, P m -> P (TaggedMatch m tag).
Hypothesis HValue : forall v, P (Value v).

Fixpoint Match_nested_ind (m : Match) : P m :=
  match m with
  | Nil => HNil
  | Str s => HStr s
  | Slice ms =>
      HSlice ms
        ((fix all (l : list Match) : Forall P l :=
            match l with
            | [] => Forall_nil P
            | x :: l' => Forall_cons x (Match_nested_ind x) (all l')
            end) ms)
  | TaggedMatch m' tag => HTagged m' tag (Match_nested_ind m')
  | Value v => HValue v
  end.
End MatchInduction.

(** ** The cursor

    [StateReader] is the interface a cursor implements: [io.RuneReader]
    plus [State] and [RestoreState].  [ReadRune] returns the rune read, or
    the message of the error it fails with (the byte count is never used by
    the package); a cursor lives outside the package and so never returns a
    [fatalError], whose type is not exported. *)
Class StateReader (R : Type) : Type := {
  state : Type;
  ReadRune : R -> (rune + string) * R;
  State : R -> state;
  RestoreState : state -> R -> R
}.

(** The contract of a checkpoint: after [RestoreState st] the cursor is at
    [st] again. *)
Class Checkpointing (R : Type) `{StateReader R} : Prop := {
  State_RestoreState : forall (st : state) (sr : R), State (RestoreState st sr) = st
}.

(** What a call of a grammar does: it returns [(m, err)] and leaves the
    cursor at [sr], or it panics. *)
Inductive outcome (R : Type) : Type :=
| Return (m : Match) (err : option error) (sr : R)
| Panic.
Arguments Return {R} m err sr.
Arguments Panic {R}.

Definition Grammar (R : Type) : Type := R -> outcome R.

(** ** The [regexp] package, as far as [Set] uses it

    [Compile] returns a pointer to a [Regexp], nil ([None]) when the pattern
    does not compile (its error is the second result, which [Set] drops);
    [MatchString] is the method of that name. *)
Class RegexpEngine : Type := {
  Regexp : Type;
  Compile : string -> option Regexp;
  MatchString : Regexp -> string -> bool
}.

(** [Escaper.Replace], the replacer of the package: a newline becomes a
    backslash and [n], a tab a backslash and [t]. *)
Fixpoint Escaper_Replace (s : string) : string :=
  match s with
  | EmptyString => EmptyString
  | String c s' =>
      if Ascii.eqb c (ascii_of_nat 10) then
        String (ascii_of_nat 92) (String "n"%char (Escaper_Replace s'))
      else if Ascii.eqb c (ascii_of_nat 9) then
        String (ascii_of_nat 92) (String "t"%char (Escaper_Replace s'))
      else String c (Escaper_Replace s')
  end.

(** [int(^uint(0) >> 1)] with a 64-bit [uint]. *)
Definition maxInt : Z := Z.shiftr (Z.ones 64) 1.

(** ** A [for] loop with a bound and early [return]

    [for_N body n s] runs [body] at most [n] times from [s]; [body] answers
    [inl s'] to go on with [s'] and [inr a] to return [a] at once.  The
    recursion follows the binary digits of the bound, so that a bound of
    [maxInt] is no obstacle to running the loop. *)
Section ForLoop.
Context {T A : Type}.
Variable body : T -> T + A.

Fixpoint for_pos (p : positive) (s : T) : T + A :=
  match p with
  | xH => body s
  | xO p' =>
      match for_pos p' s with
      | inl s' => for_pos p' s'
      | inr a => inr a
      end
  | xI p' =>
      match body s with
      | inl s' =>
          match for_pos p' s' with
          | inl s'' => for_pos p' s''
          | inr a => inr a
          end
      | inr a => inr a
      end
  end.

Definition for_N (n : N) (s : T) : T + A :=
  match n with
  | N0 => inl s
  | Npos p => for_pos p s
  end.

(** The same loop, one iteration at a time. *)
Fixpoint for_nat (n : nat) (s : T) : T + A :=
  match n with
  | O => inl s
  | S n' =>
      match body s with
      | inl s' => for_nat n' s'
      | inr a => inr a
      end
  end.
End ForLoop.

(** ** The combinators *)
Section Combinators.
Context {R : Type} `{SR : StateReader R} `{RE : RegexpEngine}.

(** [Node(g, node)] *)
Definition Node (g : Grammar R) (node : Match -> Match * option error) : Grammar R :=
  fun sr =>
    match g sr with
    | Panic => Panic
    | Return m (Some err) sr => Return Nil (Some err) sr
    | Return m None sr => let (v, err) := node m in Return v err sr
    end.

(** [Resolve(g)]: the grammar behind the pointer is called. *)
Definition Resolve (g : Grammar R) : Grammar R :=
  fun sr => g sr.

(** [Set(set)] *)
Definition Set_ (set : string) : Grammar R :=
  let set := Escaper_Replace set in
  let regset := Compile ("[" ++ set ++ "]") in
  fun sr =>
    let state := State sr in
    match ReadRune sr with
    | (inr err, sr) => Return Nil (Some (errorString err)) (RestoreState state sr)
    | (inl r, sr) =>
        let s := String r EmptyString in
        match regset with
        | None => Panic
        | Some re =>
            if MatchString re s then Return (Str s) None sr
            else Return Nil (Some (errSet set s)) (RestoreState state sr)
        end
    end.

(** The loop of [Lit] over the runes still expected. *)
Fixpoint lit_loop (state0 : state) (text : string) (rs : list rune) (sr : R) : outcome R :=
  match rs with
  | [] => Return (Str text) None sr
  | r :: rs' =>
      match ReadRune sr with
      | (inr err, sr) => Return Nil (Some (errorString err)) (RestoreState state0 sr)
      | (inl rr, sr) =>
          if negb (Ascii.eqb rr r) then
            Return Nil (Some (errLit r rr)) (RestoreState state0 sr)
          else lit_loop state0 text rs' sr
      end
  end.

(** [Lit(text)] *)
Definition Lit (text : string) : Grammar R :=
  let rs := list_ascii_of_string text in
  fun sr =>
    let state := State sr in
    lit_loop state text rs sr.

(** The loop of [And] over the grammars still to run. *)
Fixpoint and_loop (state0 : state) (gs : list (Grammar R)) (matches : list Match) (sr : R)
  : outcome R :=
  match gs with
  | [] => Return (Slice matches) None sr
  | g :: gs' =>
      match g sr with
      | Panic => Panic
      | Return m (Some err) sr => Return Nil (Some err) (RestoreState state0 sr)
      | Return m None sr =>
          and_loop state0 gs'
            (match m with
             | Nil => matches
             | _ => matches ++ [m]
             end) sr
      end
  end.

(** [And(gs...)] *)
Definition And (gs : list (Grammar R)) : Grammar R :=
  fun sr =>
    let state := State sr in
    and_loop state gs [] sr.

(** The loop of [Or] over the alternatives still to try. *)
Fixpoint or_loop (state0 : state) (gs : list (Grammar R)) (errs : list error) (sr : R)
  : outcome R :=
  match gs with
  | [] => Return Nil (Some (errOr errs)) sr
  | g :: gs' =>
      match g sr with
      | Panic => Panic
      | Return m None sr => Return m None sr
      | Return m (Some err) sr =>
          if isFE err then Return Nil (Some err) sr
          else or_loop state0 gs' (errs ++ [err]) (RestoreState state0 sr)
      end
  end.

(** [Or(gs...)] *)
Definition Or (gs : list (Grammar R)) : Grammar R :=
  fun sr =>
    let state := State sr in
    or_loop state gs [] sr.

(** One turn of the loop of [Mult], on the loop variables [(i, ms, sr)]. *)
Definition mult_body (state0 : state) (n : Z) (g : Grammar R)
    (s : Z * list Match * R) : (Z * list Match * R) + outcome R :=
  let '(i, ms, sr) := s in
  match g sr with
  | Panic => inr Panic
  | Return match_ (Some err) sr =>
      if isFE err then inr (Return Nil (Some err) sr)
      else if (i <? n)%Z then inr (Return Nil (Some err) (RestoreState state0 sr))
      else inr (Return (Slice ms) None sr)
  | Return match_ None sr => inl ((i + 1)%Z, ms ++ [match_], sr)
  end.

(** [Mult(n, m, g)]: the loop [for i := 0; i < m; i++] has at most [m] turns
    when [m] is positive and none otherwise. *)
Definition Mult (n m : Z) (g : Grammar R) : Grammar R :=
  let m := if (m =? 0)%Z then maxInt else m in
  fun sr =>
    let state := State sr in
    match for_N (mult_body state n g) (Z.to_N m) (0%Z, [], sr) with
    | inr out => out
    | inl (_, ms, sr) => Return (Slice ms) None sr
    end.

(** [Optional(g)] *)
Definition Optional (g : Grammar R) : Grammar R := Mult 0 1 g.

(** [Ignore(g)] *)
Definition Ignore (g : Grammar R) : Grammar R :=
  fun sr =>
    match g sr with
    | Panic => Panic
    | Return _ (Some err) sr => Return Nil (Some err) sr
    | Return _ None sr => Return Nil None sr
    end.

(** [Require(gs...)] *)
Definition Require_ (gs : list (Grammar R)) : Grammar R :=
  let g := And gs in
  fun sr =>
    match g sr with
    | Panic => Panic
    | Return m (Some err) sr => Return Nil (Some (fatalError err)) sr
    | Return m None sr => Return m None sr
    end.

(** [Tag(tag, g)] *)
Definition Tag (tag : string) (g : Grammar R) : Grammar R :=
  fun sr =>
    match g sr with
    | Panic => Panic
    | Return m (Some err) sr => Return Nil (Some err) sr
    | Return m None sr => Return (TaggedMatch m tag) None sr
    end.
End Combinators.

(** ** Helpers on match trees *)

(** [TagMatch(tag, match)] *)
Definition TagMatch (tag : string) (match_ : Match) : Match :=
  TaggedMatch match_ tag.

(** [GetTag(m, tag)] *)
Fixpoint GetTag (m : Match) (tag : string) : Match :=
  match m with
  | Slice ms =>
      (fix range (ms : list Match) : Match :=
         match ms with
         | [] => Nil
         | mi :: ms' =>
             match GetTag mi tag with
             | Nil => range ms'
             | tm => tm
             end
         end) ms
  | TaggedMatch m' tag' => if String.eqb tag tag' then m' else GetTag m' tag
  | _ => Nil
  end.

(** [String(m)] *)
Fixpoint String_ (m : Match) : string :=
  match m with
  | Slice ms => String.concat EmptyString (map String_ ms)
  | Str s => s
  | _ => EmptyString
  end.

(** ** Grammars built from the combinators

    [grammar] is the syntax of a grammar made with the package alone, and
    [build] the [Grammar] it stands for. *)
Inductive grammar : Type :=
| GNode (g : grammar) (node : Match -> Match * option error)
| GResolve (g : grammar)
| GSet (set : string)
| GLit (text : string)
| GAnd (gs : list grammar)
| GOr (gs : list grammar)
| GMult (n m : Z) (g : grammar)
| GOptional (g : grammar)
| GIgnore (g : grammar)
| GRequire (gs : list grammar)
| GTag (tag : string) (g : grammar).

Section Build.
Context {R : Type} `{SR : StateReader R} `{RE : RegexpEngine}.

Fixpoint build (e : grammar) : Grammar R :=
  match e with
  | GNode g node => Node (build g) node
  | GResolve g => Resolve (build g)
  | GSet set => Set_ set
  | GLit text => Lit text
  | GAnd gs => And (map build gs)
  | GOr gs => Or (map build gs)
  | GMult n m g => Mult n m (build g)
  | GOptional g => Optional (build g)
  | GIgnore g => Ignore (build g)
  | GRequire gs => Require_ (map build gs)
  | GTag tag g => Tag tag (build g)
  end.
End Build.

(** [node_free e]: no [Node] occurs in [e]. *)
Fixpoint node_free (e : grammar) : bool :=
  match e with
  | GNode _ _ => false
  | GSet _ | GLit _ => true
  | GResolve g | GMult _ _ g | GOptional g | GIgnore g | GTag _ g => node_free g
  | GAnd gs | GOr gs | GRequire gs => forallb node_free gs
  end.

(** Induction over grammars that reaches the members of [And], [Or] and
    [Require]. *)
Section GrammarInduction.
Variable P : grammar -> Prop.
Hypothesis HNode : forall g node, P g -> P (GNode g node).
Hypothesis HResolve : forall g, P g -> P (GResolve g).
Hypothesis HSet : forall set, P (GSet set).
Hypothesis HLit : forall text, P (GLit text).
Hypothesis HAnd : forall gs, Forall P gs -> P (GAnd gs).
Hypothesis HOr : forall gs, Forall P gs -> P (GOr gs).
Hypothesis HMult : forall n m g, P g -> P (GMult n m g).
Hypothesis HOptional : forall g, P g -> P (GOptional g).
Hypothesis HIgnore : forall g, P g -> P (GIgnore g).
Hypothesis HRequire : forall gs, Forall P gs -> P (GRequire gs).
Hypothesis HTag : forall tag g, P g -> P (GTag tag g).

Fixpoint grammar_nested_ind (e : grammar) : P e :=
  let members :=
    fix members (l : list grammar) : Forall P l :=
      match l with
      | [] => Forall_nil P
      | x :: l' => Forall_cons x (grammar_nested_ind x) (members l')
      end in
  match e with
  | GNode g node => HNode g node (grammar_nested_ind g)
  | GResolve g => HResolve g (grammar_nested_ind g)
  | GSet set => HSet set
  | GLit text => HLit text
  | GAnd gs => HAnd gs (members gs)
  | GOr gs => HOr gs (members gs)
  | GMult n m g => HMult n m g (grammar_nested_ind g)
  | GOptional g => HOptional g (grammar_nested_ind g)
  | GIgnore g => HIgnore g (grammar_nested_ind g)
  | GRequire gs => HRequire gs (members gs)
  | GTag tag g => HTag tag g (grammar_nested_ind g)
  end.
End GrammarInduction.

(** ** A cursor over a text

    [textReader] is the plain cursor a user of the package writes: the runes
    of the input and the index of the next one.  Its checkpoint is that
    index, and reading past the end fails with [io.EOF], whose message is
    [EOF]. *)
Record textReader : Type := mkReader {
  input : list rune;
  pos : nat
}.

Definition reader (text : string) : textReader :=
  mkReader (list_ascii_of_string text) 0.

(** The text not read yet. *)
Definition rest (sr : textReader) : string :=
  string_of_list_ascii (skipn (pos sr) (input sr)).

#[export] Instance textReader_StateReader : StateReader textReader := {
  state := nat;
  ReadRune sr :=
    match nth_error (input sr) (pos sr) with
    | Some r => (inl r, mkReader (input sr) (pos sr + 1))
    | None => (inr "EOF", sr)
    end;
  State sr := pos sr;
  RestoreState st sr := mkReader (input sr) st
}.

(** ** A stand-in for [regexp] on bracket classes

    [classEngine] compiles the patterns [Set] builds when the set is made of
    characters, ranges [lo-hi], a leading [^] and backslash escapes of
    punctuation and of [a f n r t v], and follows the class parser of Go
    there: a closing bracket in first place is a member, a dash before the
    closing bracket is a member, a range with [hi < lo] and a class with no
    closing bracket do not compile.  It knows no other syntax (named
    classes, octal and hexadecimal escapes, text after the class) and
    answers nil there. *)
Record charClass : Type := mkClass {
  negated : bool;
  ranges : list (rune * rune)
}.

Definition isalnum (c : ascii) : bool :=
  let n := nat_of_ascii c in
  ((48 <=? n) && (n <=? 57) || (65 <=? n) && (n <=? 90) || (97 <=? n) && (n <=? 122))%nat.

Definition parseEscape (c : ascii) : option rune :=
  if Ascii.eqb c "a" then Some (ascii_of_nat 7)
  else if Ascii.eqb c "f" then Some (ascii_of_nat 12)
  else if Ascii.eqb c "n" then Some (ascii_of_nat 10)
  else if Ascii.eqb c "r" then Some (ascii_of_nat 13)
  else if Ascii.eqb c "t" then Some (ascii_of_nat 9)
  else if Ascii.eqb c "v" then Some (ascii_of_nat 11)
  else if negb (isalnum c) && (nat_of_ascii c <? 128)%nat then Some c
  else None.

Definition parseClassChar (t : list ascii) : option (rune * list ascii) :=
  match t with
  | [] => None
  | c :: t' =>
      if Ascii.eqb c (ascii_of_nat 92) then
        match t' with
        | [] => None
        | e :: t'' => option_map (fun r => (r, t'')) (parseEscape e)
        end
      else Some (c, t')
  end.

Fixpoint parseClass (fuel : nat) (first : bool) (t : list ascii) (class : list (rune * rune))
  : option (list (rune * rune)) :=
  match fuel with
  | O => None
  | S fuel' =>
      let item :=
        match t with
        | "["%char :: ":"%char :: _ => None
        | _ =>
            match parseClassChar t with
            | None => None
            | Some (lo, t1) =>
                match t1 with
                | "-"%char :: c :: t2 =>
                    if Ascii.eqb c "]" then parseClass fuel' false t1 (class ++ [(lo, lo)])
                    else
                      match parseClassChar (c :: t2) with
                      | None => None
                      | Some (hi, t3) =>
                          if (nat_of_ascii hi <? nat_of_ascii lo)%nat then None
                          else parseClass fuel' false t3 (class ++ [(lo, hi)])
                      end
                | _ => parseClass fuel' false t1 (class ++ [(lo, lo)])
                end
            end
        end in
      match t with
      | "]"%char :: t' =>
          if first then item
          else match t' with [] => Some class | _ => None end
      | _ => item
      end
  end.

Definition compileClass (pattern : string) : option charClass :=
  match list_ascii_of_string pattern with
  | "["%char :: "^"%char :: t =>
      option_map (mkClass true) (parseClass (S (length t)) true t [])
  | "["%char :: t =>
      option_map (mkClass false) (parseClass (S (length t)) true t [])
  | _ => None
  end.

Definition inClass (re : charClass) (c : rune) : bool :=
  xorb (negated re)
    (existsb (fun '(lo, hi) =>
                (nat_of_ascii lo <=? nat_of_ascii c)%nat && (nat_of_ascii c <=? nat_of_ascii hi)%nat)
       (ranges re)).

#[export] Instance classEngine : RegexpEngine := {
  Regexp := charClass;
  Compile := compileClass;
  MatchString re s := existsb (inClass re) (list_ascii_of_string s)
}.

(** ** Vocabulary of the properties *)

(** A failure is recoverable when its error is not a [fatalError]. *)
Definition recoverable (err : error) : Prop := isFE err = false.

Section Runs.
Context {R : Type} `{SR : StateReader R}.

(** [succeed_in_turn gs sr]: the cursor after the grammars [gs] have run
    one after the other from [sr] and all have succeeded. *)
Fixpoint succeed_in_turn (gs : list (Grammar R)) (sr : R) : option R :=
  match gs with
  | [] => Some sr
  | g :: gs' =>
      match g sr with
      | Return _ None sr1 => succeed_in_turn gs' sr1
      | _ => None
      end
  end.

(** [fail_in_turn state0 gs sr]: the alternatives [gs] are tried in order,
    the first on [sr] and each next one after [RestoreState state0]; all
    fail recoverably.  The answer is the list of their errors and the
    cursor after the last restore. *)
Fixpoint fail_in_turn (state0 : state) (gs : list (Grammar R)) (sr : R)
  : option (list error * R) :=
  match gs with
  | [] => Some ([], sr)
  | g :: gs' =>
      match g sr with
      | Return _ (Some err) sr1 =>
          if isFE err then None
          else
            match fail_in_turn state0 gs' (RestoreState state0 sr1) with
            | Some (errs, sr') => Some (err :: errs, sr')
            | None => None
            end
      | _ => None
      end
  end.

(** [apply_times g k sr]: [g] succeeds [k] times in a row from [sr]; the
    answer is the list of its matches and the cursor after the last one. *)
Fixpoint apply_times (g : Grammar R) (k : nat) (sr : R) : option (list Match * R) :=
  match k with
  | O => Some ([], sr)
  | S k' =>
      match g sr with
      | Return m None sr1 =>
          match apply_times g k' sr1 with
          | Some (ms, sr') => Some (m :: ms, sr')
          | None => None
          end
      | _ => None
      end
  end.

(** [read_runes k sr]: [k] calls of [ReadRune] from [sr] all succeed; the
    answer is the runes read and the cursor after them. *)
Fixpoint read_runes (k : nat) (sr : R) : option (list rune * R) :=
  match k with
  | O => Some ([], sr)
  | S k' =>
      match ReadRune sr with
      | (inl r, sr1) =>
          match read_runes k' sr1 with
          | Some (rs, sr') => Some (r :: rs, sr')
          | None => None
          end
      | (inr _, _) => None
      end
  end.

(** [backs_out g]: a recoverable failure of [g] leaves the cursor where the
    call found it. *)
Definition backs_out (g : Grammar R) : Prop :=
  forall sr m err sr',
    g sr = Return m (Some err) sr' -> recoverable err -> State sr' = State sr.
End Runs.

(** The bound of the loop of [Mult(n, m, g)]. *)
Definition mult_bound (m : Z) : Z := if (m =? 0)%Z then maxInt else m.

(** ** The helpers, as the specification words them *)

(** [scalars m]: the [string] values reachable from [m], from left to right,
    those below a [TaggedMatch] included. *)
Fixpoint scalars (m : Match) : list string :=
  match m with
  | Str s => [s]
  | Slice ms => flat_map scalars ms
  | TaggedMatch m' _ => scalars m'
  | _ => []
  end.

(** [tag_free m]: no [TaggedMatch] occurs in [m]. *)
Fixpoint tag_free (m : Match) : bool :=
  match m with
  | Slice ms => forallb tag_free ms
  | TaggedMatch _ _ => false
  | _ => true
  end.

(** [first_tagged m label]: depth first and from left to right, the child of
    the first [TaggedMatch] below [m] whose tag is [label]; the search goes
    into a [TaggedMatch] with another tag and not into one with this tag. *)
Fixpoint first_tagged (m : Match) (label : string) : option Match :=
  match m with
  | Slice ms =>
      (fix first (ms : list Match) : option Match :=
         match ms with
         | [] => None
         | mi :: ms' =>
             match first_tagged mi label with
             | Some c => Some c
             | None => first ms'
             end
         end) ms
  | TaggedMatch m' tag' => if String.eqb label tag' then Some m' else first_tagged m' label
  | _ => None
  end.

(** [first_tagged_value m label]: the same search, where a [TaggedMatch]
    with the tag [label] counts only when its child is not nil. *)
Fixpoint first_tagged_value (m : Match) (label : string) : option Match :=
  match m with
  | Slice ms =>
      (fix first (ms : list Match) : option Match :=
         match ms with
         | [] => None
         | mi :: ms' =>
             match first_tagged_value mi label with
             | Some c => Some c
             | None => first ms'
             end
         end) ms
  | TaggedMatch m' tag' =>
      if String.eqb label tag' then
        match m' with
        | Nil => None
        | _ => Some m'
        end
      else first_tagged_value m' label
  | _ => None
  end.

(** [tagged_values m]: no [TaggedMatch] below [m] has a nil child. *)
Fixpoint tagged_values (m : Match) : bool :=
  match m with
  | Slice ms => forallb tagged_values ms
  | TaggedMatch Nil _ => false
  | TaggedMatch m' _ => tagged_values m'
  | _ => true
  end.

(** The result of a search as [GetTag] returns it: nil when nothing is found. *)
Definition found_or_nil (r : option Match) : Match :=
  match r with
  | Some c => c
  | None => Nil
  end.

(** ** Raw text and the grammars that keep it

    [consumed sr sr']: the text between the position of [sr] and that of
    [sr'], on the input of [sr]. *)
Definition consumed (sr sr' : textReader) : string :=
  string_of_list_ascii (firstn (pos sr' - pos sr) (skipn (pos sr) (input sr))).

(** [plain e]: [e] is built without [Node], [Tag] and [Ignore], so that
    every match it returns is made of strings and sequences. *)
Fixpoint plain (e : grammar) : bool :=
  match e with
  | GNode _ _ | GTag _ _ | GIgnore _ => false
  | GSet _ | GLit _ => true
  | GResolve g | GMult _ _ g | GOptional g => plain g
  | GAnd gs | GOr gs | GRequire gs => forallb plain gs
  end.

(** [reads_back g]: [g] never changes the input; when it succeeds the
    cursor has not moved back and [String] of the match is the text
    consumed; when it fails recoverably the cursor has not moved. *)
Definition reads_back (g : Grammar textReader) : Prop :=
  forall sr m err sr',
    g sr = Return m err sr' ->
    input sr' = input sr
    /\ match err with
       | None => pos sr <= pos sr' /\ String_ m = consumed sr sr'
       | Some e => recoverable e -> pos sr' = pos sr
       end.

(** ** [GetTags] and the tags of a tree *)

(** A Go slice of matches: nil ([None]) or its elements. *)
Definition slice_elems (s : option (list Match)) : list Match :=
  match s with
  | Some l => l
  | None => []
  end.

(** [GetTags(m, tag)].  The result is a [[]interface{}]: [None] is the nil
    slice, [append] onto the nil slice gives the one appended element. *)
Fixpoint GetTags (m : Match) (tag : string) : option (list Match) :=
  match m with
  | Slice ms =>
      Some (fold_left
              (fun tms mi =>
                 match GetTags mi tag with
                 | Some tm => tms ++ tm
                 | None => tms
                 end) ms [])
  | TaggedMatch m' tag' =>
      if String.eqb tag tag' then Some (slice_elems (GetTags m' tag) ++ [m'])
      else GetTags m' tag
  | _ => None
  end.

(** [tags_of m]: the tags of the tagged matches in [m]. *)
Fixpoint tags_of (m : Match) : list string :=
  match m with
  | Slice ms => flat_map tags_of ms
  | TaggedMatch m' tag => tag :: tags_of m'
  | _ => []
  end.

(** [tagged_child tag m c]: somewhere in [m], below sequences and tagged
    matches of any tag, there is a [TaggedMatch] with the tag [tag] whose
    child is [c]. *)
Inductive tagged_child (tag : string) : Match -> Match -> Prop :=
| tagged_child_here (c : Match) :
    tagged_child tag (TaggedMatch c tag) c
| tagged_child_below (m : Match) (tag' : string) (c : Match) :
    tagged_child tag m c -> tagged_child tag (TaggedMatch m tag') c
| tagged_child_element (ms : list Match) (mi c : Match) :
    In mi ms -> tagged_child tag mi c -> tagged_child tag (Slice ms) c.

(** [ascii_text s]: every character of [s] is an ASCII character, below
    128: one byte of the Go string and one rune of its conversion. *)
Definition ascii_text (s : string) : bool :=
  forallb (fun c => (nat_of_ascii c <? 128)%nat) (list_ascii_of_string s).

(** [keeps_forward g]: over a text cursor, [g] never changes the input and,
    however it returns, never leaves the cursor before the position at
    entry nor, from a position within the input, past the end of the
    input. *)
Definition keeps_forward (g : Grammar textReader) : Prop :=
  forall sr m err sr',
    g sr = Return m err sr' ->
    input sr' = input sr
    /\ pos sr <= pos sr'
    /\ (pos sr <= length (input sr) -> pos sr' <= length (input sr)).

(** * Properties *)

#[export] Instance textReader_Checkpointing : Checkpointing textReader.
Proof. constructor. intros st sr. reflexivity. Qed.

(** ** [String]: flattening a match tree *)

Lemma append_empty_r (s : string) : (s ++ EmptyString)%string = s.
Proof. induction s as [|c s IH]; simpl; [reflexivity | now rewrite IH]. Qed.

Lemma append_assoc (a b c : string) : ((a ++ b) ++ c = a ++ (b ++ c))%string.
Proof. induction a as [|x a IH]; simpl; [reflexivity | now rewrite IH]. Qed.

(** [strings.Join(ss, "")] is plain concatenation. *)
Lemma Join_cons (s : string) (ss : list string) :
  String.concat EmptyString (s :: ss) = (s ++ String.concat EmptyString ss)%string.
Proof.
  destruct ss as [|s' ss]; simpl.
  - now rewrite append_empty_r.
  - reflexivity.
Qed.

Lemma Join_app (l1 l2 : list string) :
  String.concat EmptyString (l1 ++ l2)
  = (String.concat EmptyString l1 ++ String.concat EmptyString l2)%string.
Proof.
  induction l1 as [|s l1 IH].
  - reflexivity.
  - rewrite <- app_comm_cons, !Join_cons, IH, append_assoc. reflexivity.
Qed.

Lemma String_Slice_cons (m : Match) (ms : list Match) :
  String_ (Slice (m :: ms)) = (String_ m ++ String_ (Slice ms))%string.
Proof. cbn [String_ map]. apply Join_cons. Qed.

(** Below a [TaggedMatch], [String] finds nothing. *)
Lemma String_TaggedMatch (m : Match) (tag : string) :
  String_ (TaggedMatch m tag) = EmptyString.
Proof. reflexivity. Qed.

(** On a tree without [TaggedMatch], [String] is the concatenation of the
    scalars, from left to right. *)
Lemma String_tag_free (m : Match) :
  tag_free m = true -> String_ m = String.concat EmptyString (scalars m).
Proof.
  induction m as [| s | ms IH | m tag IH | v] using Match_nested_ind;
    intros Hfree; try reflexivity; try discriminate.
  cbn [tag_free] in Hfree. cbn [scalars].
  induction IH as [| m ms Hm _ IHms].
  - reflexivity.
  - cbn [forallb] in Hfree. apply andb_true_iff in Hfree as [Hm' Hms'].
    rewrite String_Slice_cons. cbn [flat_map].
    rewrite Join_app, (Hm Hm'), (IHms Hms'). reflexivity.
Qed.

(** C1.  [String] does not return the scalars below a [TaggedMatch]:
    [Tag("x", Lit("a"))] over the text [a] succeeds, consumes [a] and returns
    a tagged match whose only scalar is [a], and [String] of that match is
    the empty string. *)
Theorem String_loses_tagged_text :
  let m := TaggedMatch (Str "a") "x" in
  Tag "x" (Lit "a") (reader "a") = Return m None (mkReader ["a"%char] 1)
  /\ scalars m = ["a"]
  /\ String_ m = EmptyString
  /\ String_ m <> String.concat EmptyString (scalars m).
Proof.
  cbv zeta. repeat split; try reflexivity.
  cbn. discriminate.
Qed.

(** ** [GetTag]: searching a match tree *)

Lemma first_tagged_value_not_Nil (label : string) (m : Match) :
  forall c, first_tagged_value m label = Some c -> c <> Nil.
Proof.
  induction m as [| s | ms IH | m tag IH | v] using Match_nested_ind;
    intros c Hc; try discriminate.
  - cbn [first_tagged_value] in Hc.
    induction IH as [| m ms Hm _ IHms]; [discriminate|].
    destruct (first_tagged_value m label) as [c'|] eqn:Em.
    + inversion Hc; subst. now apply Hm.
    + now apply IHms.
  - cbn [first_tagged_value] in Hc.
    destruct (String.eqb label tag).
    + destruct m; inversion Hc; subst; discriminate.
    + now apply IH.
Qed.

Lemma GetTag_first_tagged_value (m : Match) (label : string) :
  GetTag m label = found_or_nil (first_tagged_value m label).
Proof.
  induction m as [| s | ms IH | m tag IH | v] using Match_nested_ind;
    try reflexivity.
  - cbn [GetTag first_tagged_value].
    induction IH as [| m ms Hm _ IHms]; [reflexivity|].
    rewrite Hm.
    destruct (first_tagged_value m label) as [c|] eqn:Em; cbn [found_or_nil].
    + pose proof (first_tagged_value_not_Nil label m c Em) as Hc.
      destruct c; congruence.
    + exact IHms.
  - cbn [GetTag first_tagged_value].
    destruct (String.eqb label tag).
    + destruct m; reflexivity.
    + exact IH.
Qed.

(** Where every tagged match has a child, the two searches agree. *)
Lemma first_tagged_value_first_tagged (m : Match) (label : string) :
  tagged_values m = true -> first_tagged_value m label = first_tagged m label.
Proof.
  induction m as [| s | ms IH | m tag IH | v] using Match_nested_ind;
    intros Hv; try reflexivity.
  - cbn [tagged_values] in Hv. cbn [first_tagged_value first_tagged].
    induction IH as [| m ms Hm _ IHms]; [reflexivity|].
    cbn [forallb] in Hv. apply andb_true_iff in Hv as [Hv1 Hv2].
    rewrite (Hm Hv1), (IHms Hv2). reflexivity.
  - cbn [first_tagged_value first_tagged].
    destruct (String.eqb label tag).
    + destruct m; try reflexivity. discriminate.
    + apply IH. destruct m; try exact Hv; reflexivity.
Qed.

(** C9, as stated, fails: [And(Tag("x", Ignore(Lit("a"))), Tag("x", Lit("b")))]
    over [ab] returns a sequence whose first tagged match with the label [x]
    has a nil child; [GetTag] does not return that child but goes on to the
    next element and returns [b]. *)
Lemma GetTag_passes_over_nil_child :
  let m := Slice [TaggedMatch Nil "x"; TaggedMatch (Str "b") "x"] in
  And [Tag "x" (Ignore (Lit "a")); Tag "x" (Lit "b")] (reader "ab")
    = Return m None (mkReader ["a"%char; "b"%char] 2)
  /\ first_tagged m "x" = Some Nil
  /\ GetTag m "x" = Str "b"
  /\ GetTag m "x" <> found_or_nil (first_tagged m "x").
Proof.
  cbv zeta. repeat split; try reflexivity.
  cbn. discriminate.
Qed.

(** C9, amended.  [GetTag(m, label)] searches [m] depth first and returns
    the child of the first [TaggedMatch] whose tag is [label] and whose child
    is not nil, going into tagged matches with another tag, and nil when
    there is none; on a tree where no tagged match has a nil child this is
    the child of the first [TaggedMatch] whose tag is [label]; and [GetTag]
    with the label [x] on the result of [Tag("x", Lit("a"))] over [a] is the
    scalar [a]. *)
Theorem GetTag_first_tagged_with_value :
  (forall m label, GetTag m label = found_or_nil (first_tagged_value m label))
  /\ (forall m label, first_tagged_value m label = None -> GetTag m label = Nil)
  /\ (forall m label,
        tagged_values m = true -> GetTag m label = found_or_nil (first_tagged m label))
  /\ (exists m sr',
        Tag "x" (Lit "a") (reader "a") = Return m None sr'
        /\ GetTag m "x" = Str "a").
Proof.
  split; [|split; [|split]].
  - exact GetTag_first_tagged_value.
  - intros m label H. now rewrite GetTag_first_tagged_value, H.
  - intros m label H.
    now rewrite GetTag_first_tagged_value, first_tagged_value_first_tagged.
  - exists (TaggedMatch (Str "a") "x"), (mkReader ["a"%char] 1).
    split; reflexivity.
Qed.

(** ** The bounded loop *)
Section ForLoopFacts.
Context {T A : Type}.
Variable body : T -> T + A.

Lemma for_nat_add (a b : nat) (s : T) :
  for_nat body (a + b) s
  = match for_nat body a s with
    | inl s' => for_nat body b s'
    | inr r => inr r
    end.
Proof.
  revert s. induction a as [|a IH]; intros s; simpl.
  - reflexivity.
  - destruct (body s) as [s'|r]; [apply IH | reflexivity].
Qed.

Lemma for_pos_nat (p : positive) (s : T) :
  for_pos body p s = for_nat body (Pos.to_nat p) s.
Proof.
  revert s. induction p as [p IH | p IH |]; intros s.
  - rewrite Pos2Nat.inj_xI.
    replace (S (2 * Pos.to_nat p)) with (1 + (Pos.to_nat p + Pos.to_nat p)) by lia.
    rewrite for_nat_add. cbn [for_pos for_nat].
    destruct (body s) as [s'|r]; [|reflexivity].
    rewrite for_nat_add, IH.
    destruct (for_nat body (Pos.to_nat p) s') as [s''|r]; [apply IH | reflexivity].
  - rewrite Pos2Nat.inj_xO.
    replace (2 * Pos.to_nat p) with (Pos.to_nat p + Pos.to_nat p) by lia.
    rewrite for_nat_add. cbn [for_pos]. rewrite IH.
    destruct (for_nat body (Pos.to_nat p) s) as [s'|r]; [apply IH | reflexivity].
  - change (Pos.to_nat 1) with 1%nat. cbn [for_pos for_nat].
    destruct (body s); reflexivity.
Qed.

(** The loop on the binary bound is the loop run turn by turn. *)
Lemma for_N_nat (n : N) (s : T) :
  for_N body n s = for_nat body (N.to_nat n) s.
Proof.
  destruct n as [|p]; [reflexivity|]. cbn [for_N N.to_nat]. apply for_pos_nat.
Qed.
End ForLoopFacts.

Section CombinatorFacts.
Context {R : Type} `{SR : StateReader R} `{CP : !Checkpointing R} `{RE : RegexpEngine}.

(** *** [And] *)

(** Once a prefix has succeeded in turn, the loop of [And] is at the rest
    of the list, with some matches collected. *)
Lemma and_loop_prefix (state0 : state) (pre rest : list (Grammar R)) :
  forall matches sr sr1,
    succeed_in_turn pre sr = Some sr1 ->
    exists matches',
      and_loop state0 (pre ++ rest) matches sr = and_loop state0 rest matches' sr1.
Proof.
  induction pre as [|g pre IH]; intros matches sr sr1 Hpre.
  - inversion Hpre; subst. now exists matches.
  - cbn [succeed_in_turn] in Hpre. cbn [app and_loop].
    destruct (g sr) as [m [err|] sr0|]; try discriminate.
    apply IH. exact Hpre.
Qed.

(** An error out of the loop of [And] comes with a nil match and a cursor
    at the checkpoint. *)
Lemma and_loop_error (state0 : state) (gs : list (Grammar R)) :
  forall matches sr m err sr',
    and_loop state0 gs matches sr = Return m (Some err) sr' ->
    m = Nil /\ State sr' = state0.
Proof.
  induction gs as [|g gs IH]; intros matches sr m err sr' H; cbn [and_loop] in H.
  - discriminate.
  - destruct (g sr) as [m0 [err0|] sr0|]; try discriminate.
    + inversion H; subst. split; [reflexivity | apply State_RestoreState].
    + eapply IH. exact H.
Qed.

(** The sequence [And] returns holds no nil. *)
Lemma and_loop_no_Nil (state0 : state) (gs : list (Grammar R)) :
  forall matches sr m sr',
    ~ In Nil matches ->
    and_loop state0 gs matches sr = Return m None sr' ->
    exists ms, m = Slice ms /\ ~ In Nil ms.
Proof.
  induction gs as [|g gs IH]; intros matches sr m sr' Hno H; cbn [and_loop] in H.
  - inversion H; subst. now exists matches.
  - destruct (g sr) as [m0 [err0|] sr0|]; try discriminate.
    eapply IH; [|exact H].
    destruct m0; try exact Hno;
      (intros Hin; apply in_app_or in Hin as [Hin|[Hin|[]]];
       [now apply Hno | discriminate]).
Qed.

Lemma And_no_Nil (gs : list (Grammar R)) (sr : R) (m : Match) (sr' : R) :
  And gs sr = Return m None sr' -> exists ms, m = Slice ms /\ ~ In Nil ms.
Proof. unfold And. apply and_loop_no_Nil. intros []. Qed.

Lemma And_stops_at_failure
    (pre : list (Grammar R)) (g : Grammar R) (post : list (Grammar R))
    (sr sr1 sr2 : R) (m : Match) (err : error) :
  succeed_in_turn pre sr = Some sr1 ->
  g sr1 = Return m (Some err) sr2 ->
  And (pre ++ g :: post) sr = Return Nil (Some err) (RestoreState (State sr) sr2).
Proof.
  intros Hpre Hg. unfold And.
  destruct (and_loop_prefix (State sr) pre (g :: post) [] sr sr1 Hpre) as [matches' ->].
  cbn [and_loop]. rewrite Hg. reflexivity.
Qed.

(** C5.  When the grammars of [pre] have succeeded in turn and the next
    one, [g], fails with [err], recoverable or fatal, [And] returns that
    very error and a nil match, and the cursor it leaves is the one [g]
    left, restored to the checkpoint taken at entry: its state is the
    state at entry, however many grammars had succeeded. *)
Theorem And_failure_restores_checkpoint
    (pre : list (Grammar R)) (g : Grammar R) (post : list (Grammar R))
    (sr sr1 sr2 : R) (m : Match) (err : error) :
  succeed_in_turn pre sr = Some sr1 ->
  g sr1 = Return m (Some err) sr2 ->
  And (pre ++ g :: post) sr = Return Nil (Some err) (RestoreState (State sr) sr2)
  /\ State (RestoreState (State sr) sr2) = State sr.
Proof.
  intros Hpre Hg. split.
  - eapply And_stops_at_failure; eassumption.
  - apply State_RestoreState.
Qed.
End CombinatorFacts.

(** [And(Lit("a"), Lit("b"), Require(Lit("c")), Lit("d"))] over [abxd]: two
    members succeed, the third fails fatally, the cursor is back at 0. *)
Lemma And_failure_restores_checkpoint_witness :
  And [Lit "a"; Lit "b"; Require_ [Lit "c"]; Lit "d"] (reader "abxd")
    = Return Nil (Some (fatalError (errLit "c"%char "x"%char))) (reader "abxd")
  /\ State (reader "abxd") = 0.
Proof.
  pose proof (And_failure_restores_checkpoint (R := textReader)
                [Lit "a"; Lit "b"] (Require_ [Lit "c"]) [Lit "d"]
                (reader "abxd") (mkReader (input (reader "abxd")) 2)
                (mkReader (input (reader "abxd")) 2)
                Nil (fatalError (errLit "c"%char "x"%char)) eq_refl eq_refl) as [H1 H2].
  split; [exact H1 | reflexivity].
Defined.

Section OrFacts.
Context {R : Type} `{SR : StateReader R} `{CP : !Checkpointing R}.

(** *** [Or] *)

(** Once a prefix of the alternatives has failed in turn, the loop of [Or]
    is at the rest of the list, with their errors collected in order. *)
Lemma or_loop_prefix (state0 : state) (pre rest : list (Grammar R)) :
  forall errs sr errs' sr1,
    fail_in_turn state0 pre sr = Some (errs', sr1) ->
    or_loop state0 (pre ++ rest) errs sr = or_loop state0 rest (errs ++ errs') sr1.
Proof.
  induction pre as [|g pre IH]; intros errs sr errs' sr1 Hpre.
  - inversion Hpre; subst. now rewrite app_nil_r.
  - cbn [fail_in_turn] in Hpre. cbn [app or_loop].
    destruct (g sr) as [m [err|] sr0|]; try discriminate.
    destruct (isFE err); [discriminate|].
    destruct (fail_in_turn state0 pre (RestoreState state0 sr0)) as [[es sr']|] eqn:E;
      [|discriminate].
    inversion Hpre; subst.
    rewrite (IH _ _ _ _ E), <- app_assoc. reflexivity.
Qed.

(** Every alternative is tried on a cursor at the checkpoint, and each one
    that fails leaves one error. *)
Lemma fail_in_turn_checkpoint (pre : list (Grammar R)) :
  forall sr errs sr1,
    fail_in_turn (State sr) pre sr = Some (errs, sr1) ->
    State sr1 = State sr /\ length errs = length pre
    /\ Forall recoverable errs.
Proof.
  assert (G : forall state0 sr errs sr1,
             State sr = state0 ->
             fail_in_turn state0 pre sr = Some (errs, sr1) ->
             State sr1 = state0 /\ length errs = length pre
             /\ Forall recoverable errs).
  { induction pre as [|g pre IH]; intros state0 sr errs sr1 Hst H;
      cbn [fail_in_turn] in H.
    - inversion H; subst. repeat split. constructor.
    - destruct (g sr) as [m [err|] sr0|]; try discriminate.
      destruct (isFE err) eqn:Efe; [discriminate|].
      destruct (fail_in_turn state0 pre (RestoreState state0 sr0)) as [[es sr']|] eqn:E;
        [|discriminate].
      inversion H; subst.
      destruct (IH _ _ _ _ (State_RestoreState _ _) E) as (H1 & H2 & H3).
      repeat split; [exact H1 | cbn; now rewrite H2 | now constructor]. }
  intros sr errs sr1. now apply G.
Qed.

Lemma Or_first_success (pre : list (Grammar R)) (g : Grammar R) (post : list (Grammar R))
    (sr sr1 sr2 : R) (errs : list error) (m : Match) :
  fail_in_turn (State sr) pre sr = Some (errs, sr1) ->
  g sr1 = Return m None sr2 ->
  Or (pre ++ g :: post) sr = Return m None sr2.
Proof.
  intros Hpre Hg. unfold Or.
  rewrite (or_loop_prefix _ _ _ _ _ _ _ Hpre). cbn [or_loop]. now rewrite Hg.
Qed.

Lemma Or_fatal (pre : list (Grammar R)) (g : Grammar R) (post : list (Grammar R))
    (sr sr1 sr2 : R) (errs : list error) (m : Match) (err : error) :
  fail_in_turn (State sr) pre sr = Some (errs, sr1) ->
  g sr1 = Return m (Some err) sr2 ->
  isFE err = true ->
  Or (pre ++ g :: post) sr = Return Nil (Some err) sr2.
Proof.
  intros Hpre Hg Hfe. unfold Or.
  rewrite (or_loop_prefix _ _ _ _ _ _ _ Hpre). cbn [or_loop]. now rewrite Hg, Hfe.
Qed.

Lemma Or_exhausted (gs : list (Grammar R)) (sr sr1 : R) (errs : list error) :
  fail_in_turn (State sr) gs sr = Some (errs, sr1) ->
  Or gs sr = Return Nil (Some (errOr errs)) sr1.
Proof.
  intros Hgs. unfold Or.
  rewrite <- (app_nil_r gs), (or_loop_prefix _ _ _ _ _ _ _ Hgs). reflexivity.
Qed.

(** A failing [Require] is fatal. *)
Lemma Require_failure_is_fatal (gs : list (Grammar R)) (sr : R) (m : Match)
    (err : error) (sr' : R) :
  Require_ gs sr = Return m (Some err) sr' -> isFE err = true.
Proof.
  unfold Require_. destruct (And gs sr) as [m0 [err0|] sr0|]; try discriminate.
  intros H; inversion H; subst. reflexivity.
Qed.

(** C6.  [Or] takes a checkpoint at entry and tries its alternatives in
    order.  Let the alternatives of [pre] fail recoverably in turn, each
    tried on a cursor restored to the checkpoint, with errors [errs].
    - If the next alternative succeeds, its match is returned as it is.
    - If the next alternative fails fatally (as a failing [Require] does),
      its error is returned at once, whatever alternatives follow.
    - If there is no next alternative, [Or] fails recoverably with the
      error made of [errs], the errors of all alternatives in order. *)
Theorem Or_alternatives
    (pre : list (Grammar R)) (sr sr1 : R) (errs : list error) :
  fail_in_turn (State sr) pre sr = Some (errs, sr1) ->
  (State sr1 = State sr /\ length errs = length pre /\ Forall recoverable errs)
  /\ (forall g post m sr2,
        g sr1 = Return m None sr2 ->
        Or (pre ++ g :: post) sr = Return m None sr2)
  /\ (forall g post m err sr2,
        g sr1 = Return m (Some err) sr2 -> isFE err = true ->
        Or (pre ++ g :: post) sr = Return Nil (Some err) sr2)
  /\ (forall gs post m err sr2,
        Require_ gs sr1 = Return m (Some err) sr2 ->
        isFE err = true
        /\ Or (pre ++ Require_ gs :: post) sr = Return Nil (Some err) sr2)
  /\ (Or pre sr = Return Nil (Some (errOr errs)) sr1
      /\ recoverable (errOr errs)).
Proof.
  intros Hpre. split; [|split; [|split; [|split]]].
  - now apply fail_in_turn_checkpoint.
  - intros g post m sr2 Hg. eapply Or_first_success; eassumption.
  - intros g post m err sr2 Hg Hfe. eapply Or_fatal; eassumption.
  - intros gs post m err sr2 Hg.
    pose proof (Require_failure_is_fatal _ _ _ _ _ Hg) as Hfe.
    split; [exact Hfe | eapply Or_fatal; eassumption].
  - split; [now apply Or_exhausted | reflexivity].
Qed.
End OrFacts.

(** [Or(Lit("a"), Require(Lit("b")), Lit("c"))] over [c]: the first
    alternative fails recoverably, the second fatally, and the third, which
    would match, is not tried. *)
Lemma Or_alternatives_witness :
  fail_in_turn (State (reader "c")) [Lit "a"] (reader "c")
    = Some ([errLit "a"%char "c"%char], reader "c")
  /\ Lit "c" (reader "c") = Return (Str "c") None (mkReader ["c"%char] 1)
  /\ Or [Lit "a"; Require_ [Lit "b"]; Lit "c"] (reader "c")
     = Return Nil (Some (fatalError (errLit "b"%char "c"%char))) (reader "c")
  /\ Or [Lit "a"] (reader "c")
     = Return Nil (Some (errOr [errLit "a"%char "c"%char])) (reader "c").
Proof.
  pose proof (Or_alternatives (R := textReader) [Lit "a"] (reader "c") (reader "c")
                [errLit "a"%char "c"%char] eq_refl) as (_ & _ & _ & Hreq & Hall & _).
  split; [reflexivity|]. split; [reflexivity|]. split.
  - exact (proj2 (Hreq [Lit "b"] [Lit "c"] Nil (fatalError (errLit "b"%char "c"%char))
                    (reader "c") eq_refl)).
  - exact Hall.
Defined.

Section LitFacts.
Context {R : Type} `{SR : StateReader R} `{CP : !Checkpointing R}.

(** *** [Lit] *)

Lemma length_list_ascii_of_string (s : string) :
  length (list_ascii_of_string s) = String.length s.
Proof. induction s as [|c s IH]; simpl; [reflexivity | now rewrite IH]. Qed.

(** Once the runes of [pre] have been read, the loop of [Lit] is at the
    rest of the text. *)
Lemma lit_loop_prefix (state0 : state) (text : string) (pre rest : list rune) :
  forall sr sr1,
    read_runes (length pre) sr = Some (pre, sr1) ->
    lit_loop state0 text (pre ++ rest) sr = lit_loop state0 text rest sr1.
Proof.
  induction pre as [|r pre IH]; intros sr sr1 H.
  - inversion H; subst. reflexivity.
  - cbn [length read_runes] in H. cbn [app lit_loop].
    destruct (ReadRune sr) as [[rr|msg] sr0]; [|discriminate].
    destruct (read_runes (length pre) sr0) as [[rs sr']|] eqn:E; [|discriminate].
    inversion H; subst.
    rewrite Ascii.eqb_refl. cbn [negb]. now apply IH.
Qed.

(** A success of the loop of [Lit] has read the expected runes, one call
    of [ReadRune] for each. *)
Lemma lit_loop_success (state0 : state) (text : string) (rs : list rune) :
  forall sr m sr',
    lit_loop state0 text rs sr = Return m None sr' ->
    m = Str text /\ read_runes (length rs) sr = Some (rs, sr').
Proof.
  induction rs as [|r rs IH]; intros sr m sr' H; cbn [lit_loop] in H.
  - inversion H; subst. split; reflexivity.
  - cbn [length read_runes].
    destruct (ReadRune sr) as [[rr|msg] sr0]; [|discriminate].
    destruct (Ascii.eqb rr r) eqn:Er; cbn [negb] in H; [|discriminate].
    apply Ascii.eqb_eq in Er. subst rr.
    destruct (IH _ _ _ H) as [Hm Hr]. rewrite Hr. split; [exact Hm | reflexivity].
Qed.

(** A failure of the loop of [Lit] is recoverable, carries no match and
    leaves the cursor at the checkpoint. *)
Lemma lit_loop_failure (state0 : state) (text : string) (rs : list rune) :
  forall sr m err sr',
    lit_loop state0 text rs sr = Return m (Some err) sr' ->
    m = Nil /\ recoverable err /\ State sr' = state0.
Proof.
  induction rs as [|r rs IH]; intros sr m err sr' H; cbn [lit_loop] in H.
  - discriminate.
  - destruct (ReadRune sr) as [[rr|msg] sr0].
    + destruct (negb (Ascii.eqb rr r)).
      * inversion H; subst. repeat split. apply State_RestoreState.
      * eapply IH. exact H.
    + inversion H; subst. repeat split. apply State_RestoreState.
Qed.

Lemma Lit_backs_out (text : string) : backs_out (Lit text).
Proof.
  intros sr m err sr' H _. unfold Lit in H.
  now apply lit_loop_failure in H.
Qed.

(** C8, amended.  [Lit(text)] reads one rune for each rune of [text].
    - It succeeds exactly when the next [len(text)] reads succeed and give
      the runes of [text]; it then returns the scalar [text] and leaves
      the cursor after these reads.
    - At the first rune [rr] read that differs from the rune [r] expected,
      it restores the checkpoint taken at entry and fails with the error
      made of [r] and [rr].
    - At the first read that fails, it restores the checkpoint and fails
      with the error of the reader.
    - Every failure is recoverable, returns no match and leaves the
      cursor in the state it had at entry. *)
Theorem Lit_matches_text (text : string) (sr : R) :
  (forall sr',
      Lit text sr = Return (Str text) None sr'
      <-> read_runes (String.length text) sr = Some (list_ascii_of_string text, sr'))
  /\ (forall pre r post rr sr1 sr2,
        list_ascii_of_string text = pre ++ r :: post ->
        read_runes (length pre) sr = Some (pre, sr1) ->
        ReadRune sr1 = (inl rr, sr2) -> rr <> r ->
        Lit text sr = Return Nil (Some (errLit r rr)) (RestoreState (State sr) sr2))
  /\ (forall pre r post msg sr1 sr2,
        list_ascii_of_string text = pre ++ r :: post ->
        read_runes (length pre) sr = Some (pre, sr1) ->
        ReadRune sr1 = (inr msg, sr2) ->
        Lit text sr = Return Nil (Some (errorString msg)) (RestoreState (State sr) sr2))
  /\ (forall m err sr',
        Lit text sr = Return m (Some err) sr' ->
        m = Nil /\ recoverable err /\ State sr' = State sr).
Proof.
  split; [|split; [|split]].
  - intros sr'. unfold Lit. split.
    + intros H. apply lit_loop_success in H as [_ H].
      now rewrite length_list_ascii_of_string in H.
    + intros H. rewrite <- length_list_ascii_of_string in H.
      rewrite <- (app_nil_r (list_ascii_of_string text)) at 1.
      rewrite (lit_loop_prefix _ _ _ _ _ _ H). reflexivity.
  - intros pre r post rr sr1 sr2 Htext Hpre Hread Hneq. unfold Lit.
    rewrite Htext, (lit_loop_prefix _ _ _ _ _ _ Hpre). cbn [lit_loop].
    rewrite Hread. apply Ascii.eqb_neq in Hneq. now rewrite Hneq.
  - intros pre r post msg sr1 sr2 Htext Hpre Hread. unfold Lit.
    rewrite Htext, (lit_loop_prefix _ _ _ _ _ _ Hpre). cbn [lit_loop].
    now rewrite Hread.
  - intros m err sr' H. unfold Lit in H. now apply lit_loop_failure in H.
Qed.
End LitFacts.

(** [Lit("foo")] over [foobar] reads three runes and leaves [bar]; over
    [fox] it fails on the third rune and is back at the start. *)
Lemma Lit_matches_text_witness :
  (exists sr', Lit "foo" (reader "foobar") = Return (Str "foo") None sr'
               /\ pos sr' = 3 /\ rest sr' = "bar")
  /\ Lit "foo" (reader "fox") = Return Nil (Some (errLit "o"%char "x"%char)) (reader "fox").
Proof.
  pose proof (Lit_matches_text (R := textReader) "foo" (reader "foobar")) as (Hok & _).
  pose proof (Lit_matches_text (R := textReader) "foo" (reader "fox")) as (_ & Hbad & _).
  split.
  - exists (mkReader (input (reader "foobar")) 3).
    split; [apply Hok; reflexivity | split; reflexivity].
  - exact (Hbad ["f"%char; "o"%char] "o"%char [] "x"%char
             (mkReader (input (reader "fox")) 2) (mkReader (input (reader "fox")) 3)
             eq_refl eq_refl eq_refl ltac:(discriminate)).
Defined.

(** C8, as stated, fails on a read failure: [Lit("a")] over the empty text
    fails with the error of the reader, [EOF], which is not the error that
    names the rune expected and the rune read. *)
Lemma Lit_read_failure_returns_reader_error :
  Lit "a" (reader "") = Return Nil (Some (errorString "EOF")) (reader "")
  /\ (forall r rr, Lit "a" (reader "") <> Return Nil (Some (errLit r rr)) (reader "")).
Proof.
  split; [reflexivity|]. intros r rr H. vm_compute in H. discriminate H.
Qed.

Section MultFacts.
Context {R : Type} `{SR : StateReader R} `{CP : !Checkpointing R}.

(** *** [Mult] *)

Lemma apply_times_length (g : Grammar R) (k : nat) :
  forall sr ms sr', apply_times g k sr = Some (ms, sr') -> length ms = k.
Proof.
  induction k as [|k IH]; intros sr ms sr' H; cbn [apply_times] in H.
  - inversion H; subst. reflexivity.
  - destruct (g sr) as [m [err|] sr0|]; try discriminate.
    destruct (apply_times g k sr0) as [[ms0 sr1]|] eqn:E; [|discriminate].
    inversion H; subst. cbn. f_equal. eapply IH. exact E.
Qed.

(** After [k] successful applications the loop of [Mult] has [i] advanced
    by [k], the [k] matches appended to [ms] and the cursor after the last
    application. *)
Lemma mult_loop_applications (state0 : state) (n : Z) (g : Grammar R) (k j : nat) :
  forall i ms0 sr ms srk,
    apply_times g k sr = Some (ms, srk) ->
    for_nat (mult_body state0 n g) (k + j) (i, ms0, sr)
    = for_nat (mult_body state0 n g) j ((i + Z.of_nat k)%Z, ms0 ++ ms, srk).
Proof.
  induction k as [|k IH]; intros i ms0 sr ms srk H; cbn [apply_times] in H.
  - inversion H; subst. cbn [Nat.add]. now rewrite app_nil_r, Z.add_0_r.
  - destruct (g sr) as [m [err|] sr0|] eqn:Eg; try discriminate.
    destruct (apply_times g k sr0) as [[ms1 sr1]|] eqn:E; [|discriminate].
    inversion H; subst.
    cbn [Nat.add for_nat]. unfold mult_body at 1. rewrite Eg.
    rewrite (IH _ _ _ _ _ E), <- app_assoc.
    replace (i + 1 + Z.of_nat k)%Z with (i + Z.of_nat (S k))%Z by lia.
    reflexivity.
Qed.

Lemma Mult_unfold (n m : Z) (g : Grammar R) (sr : R) :
  Mult n m g sr
  = match for_nat (mult_body (State sr) n g) (Z.to_nat (mult_bound m)) (0%Z, [], sr) with
    | inr out => out
    | inl (_, ms, sr') => Return (Slice ms) None sr'
    end.
Proof. unfold Mult, mult_bound. now rewrite for_N_nat, Z_N_nat. Qed.

(** What [Mult] returns when [g], after [k] successes and with the bound
    not reached, fails. *)
Lemma Mult_stops (n m : Z) (g : Grammar R) (sr : R) (k : nat)
    (ms : list Match) (srk : R) (x : Match) (err : error) (srf : R) :
  apply_times g k sr = Some (ms, srk) ->
  (Z.of_nat k < mult_bound m)%Z ->
  g srk = Return x (Some err) srf ->
  Mult n m g sr
  = if isFE err then Return Nil (Some err) srf
    else if (Z.of_nat k <? n)%Z then Return Nil (Some err) (RestoreState (State sr) srf)
    else Return (Slice ms) None srf.
Proof.
  intros Hk Hlt Hg. rewrite Mult_unfold.
  replace (Z.to_nat (mult_bound m)) with (k + S (Z.to_nat (mult_bound m) - k - 1)) by lia.
  rewrite (mult_loop_applications _ _ _ _ _ _ _ _ _ _ Hk).
  cbn [for_nat app]. unfold mult_body at 1. rewrite Hg. cbn [Z.add].
  destruct (isFE err); [reflexivity|].
  destruct (Z.of_nat k <? n)%Z; reflexivity.
Qed.

(** What [Mult] returns when [g] succeeds as many times as the bound
    allows. *)
Lemma Mult_full (n m : Z) (g : Grammar R) (sr : R) (k : nat)
    (ms : list Match) (srk : R) :
  apply_times g k sr = Some (ms, srk) ->
  Z.of_nat k = Z.max 0 (mult_bound m) ->
  Mult n m g sr = Return (Slice ms) None srk.
Proof.
  intros Hk Hm. rewrite Mult_unfold.
  replace (Z.to_nat (mult_bound m)) with (k + 0) by lia.
  rewrite (mult_loop_applications _ _ _ _ _ _ _ _ _ _ Hk). reflexivity.
Qed.

End MultFacts.

Section FatalFacts.
Context {R : Type} `{SR : StateReader R} `{CP : !Checkpointing R}.

(** C10.  Let the child [g], called on [sr1], fail with a fatal error and
    leave the cursor [sr2].
    - [Or], after the alternatives before [g] have failed recoverably,
      returns the error and leaves [sr2] as it is.
    - [Mult], after [g] has succeeded some times below the bound, returns
      the error and leaves [sr2] as it is.
    - [And], after the members before [g] have succeeded, returns the
      error and restores [sr2] to the checkpoint taken at entry. *)
Theorem fatal_failure_cursor
    (g : Grammar R) (sr sr1 sr2 : R) (m : Match) (err : error) :
  g sr1 = Return m (Some err) sr2 ->
  isFE err = true ->
  (forall pre post errs,
      fail_in_turn (State sr) pre sr = Some (errs, sr1) ->
      Or (pre ++ g :: post) sr = Return Nil (Some err) sr2)
  /\ (forall n mx k ms,
        apply_times g k sr = Some (ms, sr1) ->
        (Z.of_nat k < mult_bound mx)%Z ->
        Mult n mx g sr = Return Nil (Some err) sr2)
  /\ (forall pre post,
        succeed_in_turn pre sr = Some sr1 ->
        And (pre ++ g :: post) sr = Return Nil (Some err) (RestoreState (State sr) sr2)
        /\ State (RestoreState (State sr) sr2) = State sr).
Proof.
  intros Hg Hfe. split; [|split].
  - intros pre post errs Hpre. eapply Or_fatal; eassumption.
  - intros n mx k ms Hk Hlt.
    rewrite (Mult_stops n mx g sr k ms sr1 m err sr2 Hk Hlt Hg), Hfe. reflexivity.
  - intros pre post Hpre. split.
    + eapply And_stops_at_failure; eassumption.
    + apply State_RestoreState.
Qed.
End FatalFacts.

(** The child [Mult(0, 0, Require(Lit("a")))] over [aab] fails fatally
    after two successes and leaves the cursor at 2.  [Or] over it leaves the
    cursor at 2, [And] over it puts the cursor back at 0; and [Mult] itself,
    whose child [Require(Lit("a"))] fails fatally at 2, leaves it at 2. *)
Lemma fatal_failure_cursor_witness :
  let child := Mult 0 0 (Require_ [Lit "a"]) in
  let err := fatalError (errLit "a"%char "b"%char) in
  Or [child] (reader "aab") = Return Nil (Some err) (mkReader (input (reader "aab")) 2)
  /\ Mult 0 0 (Require_ [Lit "a"]) (reader "aab")
     = Return Nil (Some err) (mkReader (input (reader "aab")) 2)
  /\ And [child] (reader "aab") = Return Nil (Some err) (reader "aab").
Proof.
  cbv zeta.
  pose proof (fatal_failure_cursor (R := textReader)
                (Mult 0 0 (Require_ [Lit "a"]))
                (reader "aab") (reader "aab") (mkReader (input (reader "aab")) 2)
                Nil (fatalError (errLit "a"%char "b"%char)) eq_refl eq_refl)
    as (HOr & _ & HAnd).
  pose proof (fatal_failure_cursor (R := textReader)
                (Require_ [Lit "a"])
                (reader "aab") (mkReader (input (reader "aab")) 2)
                (mkReader (input (reader "aab")) 2)
                Nil (fatalError (errLit "a"%char "b"%char)) eq_refl eq_refl)
    as (_ & HMult & _).
  split; [|split].
  - exact (HOr [] [] [] eq_refl).
  - exact (HMult 0%Z 0%Z 2 [Slice [Str "a"]; Slice [Str "a"]] eq_refl eq_refl).
  - exact (proj1 (HAnd [] [] eq_refl)).
Defined.

Section SetFacts.
Context {R : Type} `{SR : StateReader R} `{CP : !Checkpointing R} `{RE : RegexpEngine}.

(** *** [Set] *)

(** A read failure is returned before the class is looked at. *)
Lemma Set_read_failure (set : string) (sr : R) (msg : string) (sr1 : R) :
  ReadRune sr = (inr msg, sr1) ->
  Set_ set sr = Return Nil (Some (errorString msg)) (RestoreState (State sr) sr1).
Proof. intros H. unfold Set_. now rewrite H. Qed.

Lemma Set_backs_out (set : string) : backs_out (Set_ set).
Proof.
  intros sr m err sr' H _. unfold Set_ in H.
  destruct (ReadRune sr) as [[r|msg] sr0].
  - destruct (Compile _) as [re|]; [|discriminate].
    destruct (MatchString re _); [discriminate|].
    inversion H; subst. apply State_RestoreState.
  - inversion H; subst. apply State_RestoreState.
Qed.

(** C4.  When the class of [set] does not compile, [Set(set)] is built all
    the same, with a nil [regset]; called on a cursor that has a rune to
    read, it panics. *)
Theorem Set_panics_when_class_does_not_compile
    (set : string) (sr : R) (r : rune) (sr1 : R) :
  Compile ("[" ++ Escaper_Replace set ++ "]") = None ->
  ReadRune sr = (inl r, sr1) ->
  Set_ set sr = Panic.
Proof. intros Hc Hr. unfold Set_. now rewrite Hr, Hc. Qed.
End SetFacts.

(** [Set("")] builds the pattern of the empty class, which does not compile;
    over the text [a] it panics. *)
Lemma Set_panics_when_class_does_not_compile_witness :
  Compile ("[" ++ Escaper_Replace "" ++ "]") = None
  /\ Set_ "" (reader "a") = Panic.
Proof.
  split; [reflexivity|].
  exact (Set_panics_when_class_does_not_compile (R := textReader) ""
           (reader "a") "a"%char (mkReader (input (reader "a")) 1) eq_refl eq_refl).
Defined.

(** *** Nil elements in the sequence of [Mult] *)

(** C3.  [Mult] appends every match of [g], nil included:
    [Mult(0, 0, Ignore(Lit("a")))] over [aab] returns a sequence of two nil
    elements, where [And(Lit("a"), Ignore(Lit("b")), Lit("c"))] over [abc]
    leaves the nil match out. *)
Theorem Mult_keeps_nil_matches :
  Mult 0 0 (Ignore (Lit "a")) (reader "aab")
    = Return (Slice [Nil; Nil]) None (mkReader (input (reader "aab")) 2)
  /\ Optional (Ignore (Lit "a")) (reader "a")
     = Return (Slice [Nil]) None (mkReader (input (reader "a")) 1)
  /\ And [Lit "a"; Ignore (Lit "b"); Lit "c"] (reader "abc")
     = Return (Slice [Str "a"; Str "c"]) None (mkReader (input (reader "abc")) 3).
Proof. repeat split; reflexivity. Qed.

Section CheckpointSymmetry.
Context {R : Type} `{SR : StateReader R} `{CP : !Checkpointing R} `{RE : RegexpEngine}.

(** *** Recoverable failures and the checkpoint *)

Lemma And_backs_out (gs : list (Grammar R)) : backs_out (And gs).
Proof.
  intros sr m err sr' H _. unfold And in H. now apply and_loop_error in H.
Qed.

Lemma or_loop_recoverable (state0 : state) (gs : list (Grammar R)) :
  forall errs sr m err sr',
    State sr = state0 ->
    or_loop state0 gs errs sr = Return m (Some err) sr' ->
    recoverable err -> State sr' = state0.
Proof.
  induction gs as [|g gs IH]; intros errs sr m err sr' Hst H Hrec; cbn [or_loop] in H.
  - inversion H; subst. reflexivity.
  - destruct (g sr) as [m0 [err0|] sr0|]; try discriminate.
    destruct (isFE err0) eqn:Efe.
    + inversion H; subst. unfold recoverable in Hrec. congruence.
    + eapply IH; [apply State_RestoreState | exact H | exact Hrec].
Qed.

Lemma Or_backs_out (gs : list (Grammar R)) : backs_out (Or gs).
Proof.
  intros sr m err sr' H Hrec. unfold Or in H.
  eapply or_loop_recoverable; [reflexivity | exact H | exact Hrec].
Qed.

Lemma mult_loop_recoverable (state0 : state) (n : Z) (g : Grammar R) (j : nat) :
  forall s m err sr',
    for_nat (mult_body state0 n g) j s = inr (Return m (Some err) sr') ->
    recoverable err -> State sr' = state0.
Proof.
  induction j as [|j IH]; intros [[i ms] sr] m err sr' H Hrec; cbn [for_nat] in H.
  - discriminate.
  - unfold mult_body at 1 in H.
    destruct (g sr) as [m0 [err0|] sr0|]; try discriminate.
    + destruct (isFE err0) eqn:Efe.
      * inversion H; subst. unfold recoverable in Hrec. congruence.
      * destruct (i <? n)%Z; inversion H; subst. apply State_RestoreState.
    + eapply IH; eassumption.
Qed.

Lemma Mult_backs_out (n m : Z) (g : Grammar R) : backs_out (Mult n m g).
Proof.
  intros sr x err sr' H Hrec. rewrite Mult_unfold in H.
  destruct (for_nat _ _ _) as [[[i ms] sr0]|out] eqn:E; [discriminate|].
  subst out. eapply mult_loop_recoverable; eassumption.
Qed.

Lemma Ignore_backs_out (g : Grammar R) : backs_out g -> backs_out (Ignore g).
Proof.
  intros Hg sr m err sr' H Hrec. unfold Ignore in H.
  destruct (g sr) as [m0 [err0|] sr0|] eqn:E; try discriminate.
  inversion H; subst. eapply Hg; eassumption.
Qed.

Lemma Tag_backs_out (tag : string) (g : Grammar R) : backs_out g -> backs_out (Tag tag g).
Proof.
  intros Hg sr m err sr' H Hrec. unfold Tag in H.
  destruct (g sr) as [m0 [err0|] sr0|] eqn:E; try discriminate.
  inversion H; subst. eapply Hg; eassumption.
Qed.

Lemma Require_backs_out (gs : list (Grammar R)) : backs_out (Require_ gs).
Proof.
  intros sr m err sr' H Hrec.
  apply Require_failure_is_fatal in H. unfold recoverable in Hrec. congruence.
Qed.

(** Checkpoint symmetry holds for every grammar built without [Node]. *)
Lemma node_free_backs_out (e : grammar) :
  node_free e = true -> backs_out (build e).
Proof.
  induction e as [g node IH | g IH | set | text | gs _ | gs _ | n m g IH
                 | g IH | g IH | gs _ | tag g IH] using grammar_nested_ind;
    cbn [node_free build]; intros Hfree.
  - discriminate.
  - unfold Resolve. intros sr m err sr'. now apply IH.
  - apply Set_backs_out.
  - apply Lit_backs_out.
  - apply And_backs_out.
  - apply Or_backs_out.
  - apply Mult_backs_out.
  - apply Mult_backs_out.
  - apply Ignore_backs_out. now apply IH.
  - apply Require_backs_out.
  - apply Tag_backs_out. now apply IH.
Qed.

(** What [Node] does when the transform fails: the error goes out and the
    cursor stays where [g] left it. *)
Lemma Node_transform_failure (g : Grammar R) (node : Match -> Match * option error)
    (sr sr1 : R) (m v : Match) (err : error) :
  g sr = Return m None sr1 ->
  node m = (v, Some err) ->
  Node g node sr = Return v (Some err) sr1.
Proof. intros Hg Hn. unfold Node. now rewrite Hg, Hn. Qed.
End CheckpointSymmetry.

Section MultRepetition.
Context {R : Type} `{SR : StateReader R} `{CP : !Checkpointing R} `{RE : RegexpEngine}.

End MultRepetition.



(** C2.  [Node(Lit("a"), node)], with a transform [node] that fails with a
    plain error, fails recoverably over the text [a] and leaves the cursor
    after the [a] that [Lit] has read: the state after the call is not the
    state before it.  [Mult(0, 0, ...)] over that grammar then succeeds with
    no match and a cursor that has moved. *)
Theorem Node_failure_leaves_cursor_moved :
  let node := fun _ : Match => (Nil, Some (errorString "no node")) in
  let g := build (GNode (GLit "a") node) in
  g (reader "a") = Return Nil (Some (errorString "no node")) (mkReader (input (reader "a")) 1)
  /\ recoverable (errorString "no node")
  /\ State (mkReader (input (reader "a")) 1) <> State (reader "a")
  /\ ~ backs_out g
  /\ Mult 0 0 g (reader "a") = Return (Slice []) None (mkReader (input (reader "a")) 1).
Proof.
  cbv zeta. split; [reflexivity|]. split; [reflexivity|].
  split; [discriminate|]. split; [|reflexivity].
  intros H.
  specialize (H (reader "a") Nil (errorString "no node")
                (mkReader (input (reader "a")) 1) eq_refl eq_refl).
  discriminate H.
Qed.

(** ** [String] gives back the text consumed, on plain grammars *)
Section RoundTrip.
Context `{RE : RegexpEngine}.

Lemma string_of_list_ascii_app (a b : list ascii) :
  string_of_list_ascii (a ++ b)
  = (string_of_list_ascii a ++ string_of_list_ascii b)%string.
Proof. induction a as [|c a IH]; simpl; [reflexivity | now rewrite IH]. Qed.

Lemma firstn_add_skipn {A : Type} (a b : nat) (l : list A) :
  firstn a l ++ firstn b (skipn a l) = firstn (a + b) l.
Proof.
  revert l. induction a as [|a IH]; intros l.
  - reflexivity.
  - destruct l as [|x l]; cbn [firstn skipn Nat.add app].
    + now rewrite firstn_nil.
    + now rewrite IH.
Qed.

Lemma skipn_add {A : Type} (a b : nat) (l : list A) :
  skipn (a + b) l = skipn b (skipn a l).
Proof.
  revert l. induction a as [|a IH]; intros l.
  - reflexivity.
  - destruct l as [|x l]; cbn [skipn Nat.add]; [now rewrite skipn_nil | apply IH].
Qed.

Lemma consumed_refl (sr sr' : textReader) :
  pos sr' = pos sr -> consumed sr sr' = EmptyString.
Proof. intros H. unfold consumed. rewrite H, Nat.sub_diag. reflexivity. Qed.

Lemma consumed_app (sr sr1 sr2 : textReader) :
  input sr1 = input sr -> pos sr <= pos sr1 -> pos sr1 <= pos sr2 ->
  (consumed sr sr1 ++ consumed sr1 sr2)%string = consumed sr sr2.
Proof.
  intros Hin H1 H2. unfold consumed.
  rewrite <- string_of_list_ascii_app, Hin. f_equal.
  assert (Hs : skipn (pos sr1) (input sr)
               = skipn (pos sr1 - pos sr) (skipn (pos sr) (input sr))).
  { rewrite <- skipn_add. f_equal. lia. }
  rewrite Hs, firstn_add_skipn.
  replace (pos sr1 - pos sr + (pos sr2 - pos sr1)) with (pos sr2 - pos sr) by lia.
  reflexivity.
Qed.

(** The same text, when the end cursors differ by the input only. *)
Lemma consumed_same_pos (sr sr1 sr2 : textReader) :
  pos sr2 = pos sr1 -> consumed sr sr2 = consumed sr sr1.
Proof. intros H. unfold consumed. now rewrite H. Qed.

Lemma ReadRune_textReader (sr : textReader) :
  match ReadRune sr with
  | (inl r, sr1) =>
      input sr1 = input sr /\ pos sr1 = pos sr + 1
      /\ consumed sr sr1 = String r EmptyString
  | (inr _, sr1) => sr1 = sr
  end.
Proof.
  cbn [ReadRune textReader_StateReader].
  destruct (nth_error (input sr) (pos sr)) as [r|] eqn:E; [|reflexivity].
  cbn [input pos]. repeat split.
  unfold consumed. cbn [pos input].
  replace (pos sr + 1 - pos sr) with 1 by lia.
  apply nth_error_split in E as (l1 & l2 & Hl & Hlen).
  rewrite Hl, <- Hlen, skipn_app, Nat.sub_diag, skipn_all. reflexivity.
Qed.

Lemma String_Slice_app (ms : list Match) (m : Match) :
  String_ (Slice (ms ++ [m])) = (String_ (Slice ms) ++ String_ m)%string.
Proof.
  cbn [String_]. rewrite map_app, Join_app. cbn [map].
  f_equal.
Qed.

Lemma consumed_same_start (a b sr' : textReader) :
  input a = input b -> pos a = pos b -> consumed a sr' = consumed b sr'.
Proof. intros Hi Hp. unfold consumed. now rewrite Hi, Hp. Qed.

Lemma lit_loop_reads (state0 : nat) (text : string) (rs : list rune) :
  forall cur m err sr',
    lit_loop state0 text rs cur = Return m err sr' ->
    input sr' = input cur
    /\ match err with
       | None => pos cur <= pos sr' /\ string_of_list_ascii rs = consumed cur sr'
       | Some _ => pos sr' = state0
       end.
Proof.
  induction rs as [|r rs IH]; intros cur m err sr' H; cbn [lit_loop] in H.
  - inversion H; subst. split; [reflexivity|]. split; [lia|].
    now rewrite consumed_refl.
  - pose proof (ReadRune_textReader cur) as Hr.
    destruct (ReadRune cur) as [[rr|msg] sr1].
    + destruct Hr as (Hin & Hpos & Htxt).
      destruct (Ascii.eqb rr r) eqn:Er; cbn [negb] in H.
      * apply Ascii.eqb_eq in Er. subst rr.
        destruct (IH _ _ _ _ H) as [Hin' Hres].
        split; [congruence|].
        destruct err as [e|]; [exact Hres|].
        destruct Hres as [Hle Hrs]. split; [lia|].
        rewrite <- (consumed_app cur sr1 sr') by (trivial; lia).
        rewrite Htxt, <- Hrs. reflexivity.
      * inversion H; subst. split; [exact Hin | reflexivity].
    + subst sr1. inversion H; subst. split; reflexivity.
Qed.

Lemma Lit_reads_back (text : string) : reads_back (Lit text).
Proof.
  intros sr m err sr' H. unfold Lit in H.
  destruct (lit_loop_reads _ _ _ _ _ _ _ H) as [Hin Hres].
  split; [exact Hin|].
  destruct err as [e|].
  - intros _. exact Hres.
  - destruct Hres as [Hle Htxt]. split; [exact Hle|].
    apply lit_loop_success in H as [-> _].
    cbn [String_]. now rewrite <- Htxt, string_of_list_ascii_of_string.
Qed.

Lemma Set_reads_back (set : string) : reads_back (Set_ set).
Proof.
  intros sr m err sr' H. unfold Set_ in H.
  pose proof (ReadRune_textReader sr) as Hr.
  destruct (ReadRune sr) as [[r|msg] sr1].
  - destruct Hr as (Hin & Hpos & Htxt).
    destruct (Compile _) as [re|]; [|discriminate].
    destruct (MatchString re _); inversion H; subst.
    + split; [exact Hin|]. split; [lia | now rewrite Htxt].
    + split; [exact Hin | reflexivity].
  - subst sr1. inversion H; subst. split; reflexivity.
Qed.

Lemma and_loop_reads (state0 : nat) (gs : list (Grammar textReader)) :
  Forall reads_back gs ->
  forall matches cur m err sr',
    and_loop state0 gs matches cur = Return m err sr' ->
    input sr' = input cur
    /\ match err with
       | None =>
           pos cur <= pos sr'
           /\ String_ m = (String_ (Slice matches) ++ consumed cur sr')%string
       | Some _ => pos sr' = state0
       end.
Proof.
  induction 1 as [|g gs Hg _ IH]; intros matches cur m err sr' H; cbn [and_loop] in H.
  - inversion H; subst. split; [reflexivity|]. split; [lia|].
    now rewrite consumed_refl, append_empty_r.
  - destruct (g cur) as [m0 [e0|] sr0|] eqn:Eg; try discriminate.
    + destruct (Hg _ _ _ _ Eg) as [Hin _].
      inversion H; subst. split; [exact Hin | reflexivity].
    + destruct (Hg _ _ _ _ Eg) as (Hin & Hle & Htxt).
      destruct (IH _ _ _ _ _ H) as [Hin' Hres].
      split; [congruence|].
      destruct err as [e|]; [exact Hres|].
      destruct Hres as [Hle' Htxt']. split; [lia|].
      rewrite Htxt', <- (consumed_app cur sr0 sr') by (trivial; lia).
      rewrite <- append_assoc, <- Htxt. f_equal.
      destruct m0; try apply String_Slice_app.
      cbn [String_]. now rewrite append_empty_r.
Qed.

Lemma And_reads_back (gs : list (Grammar textReader)) :
  Forall reads_back gs -> reads_back (And gs).
Proof.
  intros Hgs sr m err sr' H. unfold And in H.
  destruct (and_loop_reads _ _ Hgs _ _ _ _ _ H) as [Hin Hres].
  split; [exact Hin|].
  destruct err as [e|]; [intros _; exact Hres | exact Hres].
Qed.

Lemma Require_reads_back (gs : list (Grammar textReader)) :
  Forall reads_back gs -> reads_back (Require_ gs).
Proof.
  intros Hgs sr m err sr' H. unfold Require_ in H.
  destruct (And gs sr) as [m0 [e0|] sr0|] eqn:E; try discriminate.
  - destruct (And_reads_back gs Hgs _ _ _ _ E) as [Hin _].
    inversion H; subst. split; [exact Hin | discriminate].
  - inversion H; subst. exact (And_reads_back gs Hgs _ _ _ _ E).
Qed.

Lemma or_loop_reads (state0 : nat) (gs : list (Grammar textReader)) :
  Forall reads_back gs ->
  forall errs cur m err sr',
    pos cur = state0 ->
    or_loop state0 gs errs cur = Return m err sr' ->
    input sr' = input cur
    /\ match err with
       | None => pos cur <= pos sr' /\ String_ m = consumed cur sr'
       | Some e => recoverable e -> pos sr' = state0
       end.
Proof.
  induction 1 as [|g gs Hg _ IH]; intros errs cur m err sr' Hst H; cbn [or_loop] in H.
  - inversion H; subst. split; [reflexivity | intros _; reflexivity].
  - destruct (g cur) as [m0 [e0|] sr0|] eqn:Eg; try discriminate.
    + destruct (Hg _ _ _ _ Eg) as [Hin _].
      destruct (isFE e0) eqn:Efe.
      * inversion H; subst. split; [exact Hin|].
        unfold recoverable. congruence.
      * destruct (IH _ (mkReader (input sr0) state0) _ _ _ eq_refl H) as [Hin' Hres].
        cbn [RestoreState textReader_StateReader input pos] in Hin', Hres.
        split; [congruence|].
        destruct err as [e|]; [exact Hres|].
        destruct Hres as [Hle Htxt]. split; [lia|].
        rewrite Htxt. apply consumed_same_start; [exact Hin | now symmetry].
    + inversion H; subst. exact (Hg _ _ _ _ Eg).
Qed.

Lemma Or_reads_back (gs : list (Grammar textReader)) :
  Forall reads_back gs -> reads_back (Or gs).
Proof.
  intros Hgs sr m err sr' H. unfold Or in H.
  exact (or_loop_reads _ _ Hgs _ _ _ _ _ eq_refl H).
Qed.

Lemma mult_loop_reads (state0 : nat) (n : Z) (g : Grammar textReader) :
  reads_back g ->
  forall j i ms cur,
    match for_nat (mult_body state0 n g) j (i, ms, cur) with
    | inr (Return m err sr') =>
        input sr' = input cur
        /\ match err with
           | None =>
               pos cur <= pos sr'
               /\ String_ m = (String_ (Slice ms) ++ consumed cur sr')%string
           | Some e => recoverable e -> pos sr' = state0
           end
    | inr Panic => True
    | inl (_, ms', sr') =>
        input sr' = input cur /\ pos cur <= pos sr'
        /\ String_ (Slice ms') = (String_ (Slice ms) ++ consumed cur sr')%string
    end.
Proof.
  intros Hg. induction j as [|j IH]; intros i ms cur; cbn [for_nat].
  - split; [reflexivity|]. split; [lia|].
    now rewrite consumed_refl, append_empty_r.
  - unfold mult_body at 1.
    destruct (g cur) as [m0 [e0|] sr0|] eqn:Eg; [| |exact I].
    + destruct (Hg _ _ _ _ Eg) as [Hin Hrec].
      destruct (isFE e0) eqn:Efe.
      * split; [exact Hin|]. unfold recoverable. congruence.
      * destruct (i <? n)%Z.
        -- split; [exact Hin | reflexivity].
        -- split; [exact Hin|]. specialize (Hrec Efe). split; [lia|].
           now rewrite consumed_refl, append_empty_r.
    + destruct (Hg _ _ _ _ Eg) as (Hin & Hle & Htxt).
      specialize (IH (i + 1)%Z (ms ++ [m0]) sr0).
      destruct (for_nat _ j ((i + 1)%Z, ms ++ [m0], sr0))
        as [[[i' ms'] sr']|[m err sr'|]]; [| |exact I].
      * destruct IH as (Hin' & Hle' & Htxt').
        split; [congruence|]. split; [lia|].
        rewrite Htxt', String_Slice_app, Htxt, append_assoc.
        now rewrite (consumed_app cur sr0 sr') by (trivial; lia).
      * destruct IH as [Hin' Hres].
        split; [congruence|].
        destruct err as [e|]; [exact Hres|].
        destruct Hres as [Hle' Htxt']. split; [lia|].
        rewrite Htxt', String_Slice_app, Htxt, append_assoc.
        now rewrite (consumed_app cur sr0 sr') by (trivial; lia).
Qed.

Lemma Mult_reads_back (n m : Z) (g : Grammar textReader) :
  reads_back g -> reads_back (Mult n m g).
Proof.
  intros Hg sr x err sr' H. rewrite Mult_unfold in H.
  pose proof (mult_loop_reads (pos sr) n g Hg (Z.to_nat (mult_bound m)) 0%Z [] sr) as L.
  change (State sr) with (pos sr) in H.
  destruct (for_nat _ (Z.to_nat (mult_bound m)) (0%Z, [], sr))
    as [[[i' ms'] sr1]|out].
  - inversion H; subst. destruct L as (Hin & Hle & Htxt).
    split; [exact Hin|]. split; [exact Hle | exact Htxt].
  - subst out. exact L.
Qed.

(** Every plain grammar reads back. *)
Lemma plain_reads_back (e : grammar) :
  plain e = true -> reads_back (build (R := textReader) e).
Proof.
  assert (members : forall gs,
             Forall (fun e => plain e = true -> reads_back (build (R := textReader) e)) gs ->
             forallb plain gs = true ->
             Forall reads_back (map (build (R := textReader)) gs)).
  { induction 1 as [|g gs Hg _ IH]; cbn [forallb map]; intros Hp.
    - constructor.
    - apply andb_true_iff in Hp as [Hp1 Hp2]. constructor; [now apply Hg | now apply IH]. }
  induction e as [g node IH | g IH | set | text | gs IH | gs IH | n m g IH
                 | g IH | g IH | gs IH | tag g IH] using grammar_nested_ind;
    cbn [plain build]; intros Hp; try discriminate.
  - unfold Resolve. intros sr m err sr'. now apply IH.
  - apply Set_reads_back.
  - apply Lit_reads_back.
  - apply And_reads_back. now apply members.
  - apply Or_reads_back. now apply members.
  - apply Mult_reads_back. now apply IH.
  - apply Mult_reads_back. now apply IH.
  - apply Require_reads_back. now apply members.
Qed.

(** The round trip of [String]: a successful match of a grammar built
    without [Node], [Tag] and [Ignore] flattens to the text consumed. *)
Lemma String_round_trip_plain (e : grammar) (sr : textReader) (m : Match) (sr' : textReader) :
  plain e = true ->
  build e sr = Return m None sr' ->
  input sr' = input sr /\ pos sr <= pos sr' /\ String_ m = consumed sr sr'.
Proof.
  intros Hp H. destruct (plain_reads_back e Hp _ _ _ _ H) as (Hin & Hle & Htxt).
  repeat split; assumption.
Qed.
End RoundTrip.

(** * Further properties of the package *)

(** ** [GetTags]: all the tagged matches of a tree *)

Lemma GetTags_fold (tag : string) (ms : list Match) :
  forall tms,
    fold_left
      (fun tms mi =>
         match GetTags mi tag with
         | Some tm => tms ++ tm
         | None => tms
         end) ms tms
    = tms ++ flat_map (fun mi => slice_elems (GetTags mi tag)) ms.
Proof.
  induction ms as [|mi ms IH]; intros tms; cbn [fold_left flat_map].
  - now rewrite app_nil_r.
  - rewrite IH. destruct (GetTags mi tag) as [tm|]; cbn [slice_elems].
    + now rewrite app_assoc.
    + reflexivity.
Qed.

(** The result of [GetTags] on a sequence is the concatenation of its
    results on the elements. *)
Lemma GetTags_Slice (ms : list Match) (tag : string) :
  GetTags (Slice ms) tag = Some (flat_map (fun mi => slice_elems (GetTags mi tag)) ms).
Proof. cbn [GetTags]. now rewrite GetTags_fold. Qed.

Lemma GetTags_sound (tag : string) (m : Match) :
  forall c, In c (slice_elems (GetTags m tag)) -> tagged_child tag m c.
Proof.
  induction m as [| s | ms IH | m tag' IH | v] using Match_nested_ind;
    intros c Hc; try (now destruct Hc).
  - rewrite GetTags_Slice in Hc. cbn [slice_elems] in Hc.
    apply in_flat_map in Hc as (mi & Hmi & Hin).
    rewrite Forall_forall in IH.
    eapply tagged_child_element; [exact Hmi | now apply IH].
  - cbn [GetTags] in Hc. destruct (String.eqb_spec tag tag') as [<-|Hneq].
    + cbn [slice_elems] in Hc. apply in_app_or in Hc as [Hc|[<-|[]]].
      * apply tagged_child_below. now apply IH.
      * apply tagged_child_here.
    + apply tagged_child_below. now apply IH.
Qed.

Lemma GetTags_complete (tag : string) (m c : Match) :
  tagged_child tag m c -> In c (slice_elems (GetTags m tag)).
Proof.
  induction 1 as [c | m tag' c _ IH | ms mi c Hmi _ IH].
  - cbn [GetTags]. rewrite String.eqb_refl. cbn [slice_elems].
    apply in_or_app. right. now left.
  - cbn [GetTags]. destruct (String.eqb tag tag'); [|exact IH].
    cbn [slice_elems]. apply in_or_app. now left.
  - rewrite GetTags_Slice. cbn [slice_elems].
    apply in_flat_map. now exists mi.
Qed.

(** X1.  The elements of [GetTags(m, tag)] are exactly the children of the
    tagged matches of [m] with the tag [tag], those nested in a tagged match
    of the same tag and those with a nil child included. *)
Theorem GetTags_elements (m : Match) (tag : string) (c : Match) :
  In c (slice_elems (GetTags m tag)) <-> tagged_child tag m c.
Proof. split; [apply GetTags_sound | apply GetTags_complete]. Qed.

Lemma GetTag_tagged_child (tag : string) (m : Match) :
  GetTag m tag <> Nil -> tagged_child tag m (GetTag m tag).
Proof.
  induction m as [| s | ms IH | m tag' IH | v] using Match_nested_ind;
    intros Hc; try (now elim Hc).
  - cbn [GetTag] in *.
    induction IH as [| mi ms Hmi _ IHms]; [now elim Hc|].
    destruct (GetTag mi tag) eqn:E.
    + specialize (IHms Hc). inversion IHms as [| |ms0 mj c0 Hin Hch]; subst.
      eapply tagged_child_element; [right; exact Hin | exact Hch].
    + eapply tagged_child_element; [now left | apply Hmi; discriminate].
    + eapply tagged_child_element; [now left | apply Hmi; discriminate].
    + eapply tagged_child_element; [now left | apply Hmi; discriminate].
    + eapply tagged_child_element; [now left | apply Hmi; discriminate].
  - cbn [GetTag] in *. destruct (String.eqb_spec tag tag') as [<-|Hneq].
    + apply tagged_child_here.
    + apply tagged_child_below. now apply IH.
Qed.

(** X2.  What [GetTag(m, tag)] finds, when it is not nil, is one of the
    elements of [GetTags(m, tag)]. *)
Theorem GetTag_in_GetTags (m : Match) (tag : string) :
  GetTag m tag <> Nil -> In (GetTag m tag) (slice_elems (GetTags m tag)).
Proof. intros H. apply GetTags_complete. now apply GetTag_tagged_child. Qed.

Lemma GetTag_in_GetTags_witness :
  let m := Slice [Str "k"; TaggedMatch (Slice [TaggedMatch (Str "v") "x"]) "y"] in
  GetTag m "x" = Str "v" /\ In (GetTag m "x") (slice_elems (GetTags m "x")).
Proof.
  cbv zeta. split; [reflexivity|].
  apply (GetTag_in_GetTags
           (Slice [Str "k"; TaggedMatch (Slice [TaggedMatch (Str "v") "x"]) "y"]) "x").
  discriminate.
Defined.

Lemma tagged_child_tag (tag : string) (m c : Match) :
  tagged_child tag m c -> In tag (tags_of m).
Proof.
  induction 1 as [c | m tag' c _ IH | ms mi c Hmi _ IH]; cbn [tags_of].
  - now left.
  - now right.
  - apply in_flat_map. now exists mi.
Qed.

Lemma GetTag_unknown_tag (m : Match) (tag : string) :
  ~ In tag (tags_of m) -> GetTag m tag = Nil.
Proof.
  intros Hno.
  destruct (GetTag m tag) eqn:E; try reflexivity;
    (exfalso; apply Hno; apply (tagged_child_tag tag m (GetTag m tag));
     apply GetTag_tagged_child; rewrite E; discriminate).
Qed.

Lemma GetTags_unknown_tag (m : Match) (tag : string) :
  ~ In tag (tags_of m) -> slice_elems (GetTags m tag) = [].
Proof.
  intros Hno.
  destruct (slice_elems (GetTags m tag)) as [|c l] eqn:E; [reflexivity|].
  exfalso. apply Hno. apply (tagged_child_tag tag m c).
  apply GetTags_sound. rewrite E. now left.
Qed.

(** X3.  For a tag that no tagged match of [m] carries, [GetTag] returns nil
    and [GetTags] returns no element. *)
Theorem unknown_tag_found_nowhere (m : Match) (tag : string) :
  ~ In tag (tags_of m) ->
  GetTag m tag = Nil /\ slice_elems (GetTags m tag) = [].
Proof.
  intros Hno. split; [now apply GetTag_unknown_tag | now apply GetTags_unknown_tag].
Qed.

Lemma unknown_tag_found_nowhere_witness :
  let m := Slice [Str "k"; TaggedMatch (Str "v") "x"] in
  GetTag m "y" = Nil /\ slice_elems (GetTags m "y") = [].
Proof.
  cbv zeta.
  apply (unknown_tag_found_nowhere (Slice [Str "k"; TaggedMatch (Str "v") "x"]) "y").
  cbn. intros [H|[]]. discriminate H.
Defined.

(** X4.  In a sequence, [GetTag] finds the child of a tagged element when the
    child is not nil and the elements before it carry no such tag. *)
Theorem GetTag_finds_tagged_element
    (pre : list Match) (c : Match) (tag : string) (post : list Match) :
  c <> Nil ->
  Forall (fun mi => ~ In tag (tags_of mi)) pre ->
  GetTag (Slice (pre ++ TaggedMatch c tag :: post)) tag = c.
Proof.
  intros Hc Hpre. cbn [GetTag].
  induction Hpre as [|mi pre Hmi _ IH]; cbn [app].
  - cbn [GetTag]. rewrite String.eqb_refl. destruct c; try reflexivity. now elim Hc.
  - rewrite (GetTag_unknown_tag mi tag Hmi). exact IH.
Qed.

Lemma GetTag_finds_tagged_element_witness :
  GetTag (Slice ([Str "k"; TaggedMatch (Str "u") "y"]
                   ++ TaggedMatch (Str "v") "x" :: [TaggedMatch (Str "w") "x"])) "x"
  = Str "v".
Proof.
  apply (GetTag_finds_tagged_element [Str "k"; TaggedMatch (Str "u") "y"] (Str "v") "x"
           [TaggedMatch (Str "w") "x"]).
  - discriminate.
  - repeat constructor; cbn; intros H; repeat destruct H as [H|H]; try discriminate H;
      try exact H.
Defined.

Lemma length_flat_map_count (tag : string) (ms : list Match) :
  Forall (fun mi => length (slice_elems (GetTags mi tag))
                    = count_occ string_dec (tags_of mi) tag) ms ->
  length (flat_map (fun mi => slice_elems (GetTags mi tag)) ms)
  = count_occ string_dec (flat_map tags_of ms) tag.
Proof.
  induction 1 as [|mi ms Hmi _ IH]; cbn [flat_map].
  - reflexivity.
  - now rewrite length_app, count_occ_app, Hmi, IH.
Qed.

(** X5.  [GetTags(m, tag)] has one element for each tagged match of [m]
    that carries the tag [tag]. *)
Theorem GetTags_length (m : Match) (tag : string) :
  length (slice_elems (GetTags m tag)) = count_occ string_dec (tags_of m) tag.
Proof.
  induction m as [| s | ms IH | m tag' IH | v] using Match_nested_ind;
    try reflexivity.
  - rewrite GetTags_Slice. cbn [slice_elems tags_of].
    now apply length_flat_map_count.
  - cbn [GetTags tags_of count_occ].
    destruct (String.eqb_spec tag tag') as [<-|Hneq].
    + destruct (string_dec tag tag) as [_|Hn]; [|now elim Hn].
      cbn [slice_elems]. rewrite length_app, IH. cbn [length]. lia.
    + destruct (string_dec tag' tag) as [He|_]; [now elim Hneq|]. exact IH.
Qed.

(** ** [Escaper]: the set as it goes into the pattern and the message *)

Lemma Escaper_Replace_clean (c : ascii) (s : string) :
  c = ascii_of_nat 10 \/ c = ascii_of_nat 9 ->
  ~ In c (list_ascii_of_string (Escaper_Replace s)).
Proof.
  intros Hc. induction s as [|x s IH]; cbn [Escaper_Replace list_ascii_of_string].
  - intros [].
  - destruct (Ascii.eqb_spec x (ascii_of_nat 10)) as [->|Hn].
    + cbn [list_ascii_of_string]. intros [H|[H|H]]; [| |now apply IH];
        destruct Hc as [-> | ->]; discriminate H.
    + destruct (Ascii.eqb_spec x (ascii_of_nat 9)) as [->|Ht].
      * cbn [list_ascii_of_string]. intros [H|[H|H]]; [| |now apply IH];
          destruct Hc as [-> | ->]; discriminate H.
      * cbn [list_ascii_of_string]. intros [H|H]; [|now apply IH].
        destruct Hc as [-> | ->]; congruence.
Qed.

Lemma Escaper_Replace_unchanged (s : string) :
  ~ In (ascii_of_nat 10) (list_ascii_of_string s) ->
  ~ In (ascii_of_nat 9) (list_ascii_of_string s) ->
  Escaper_Replace s = s.
Proof.
  induction s as [|x s IH]; cbn [Escaper_Replace list_ascii_of_string]; intros Hn Ht.
  - reflexivity.
  - destruct (Ascii.eqb_spec x (ascii_of_nat 10)) as [->|_]; [elim Hn; now left|].
    destruct (Ascii.eqb_spec x (ascii_of_nat 9)) as [->|_]; [elim Ht; now left|].
    rewrite IH; [reflexivity | |]; intros H; [apply Hn | apply Ht]; now right.
Qed.

(** X6.  The escaped set holds no newline and no tab, whatever the set; a
    set without newline and tab is left as it is; so escaping twice is
    escaping once. *)
Theorem Escaper_Replace_escapes (s : string) :
  ~ In (ascii_of_nat 10) (list_ascii_of_string (Escaper_Replace s))
  /\ ~ In (ascii_of_nat 9) (list_ascii_of_string (Escaper_Replace s))
  /\ (~ In (ascii_of_nat 10) (list_ascii_of_string s) ->
      ~ In (ascii_of_nat 9) (list_ascii_of_string s) ->
      Escaper_Replace s = s)
  /\ Escaper_Replace (Escaper_Replace s) = Escaper_Replace s.
Proof.
  split; [|split; [|split]].
  - apply Escaper_Replace_clean. now left.
  - apply Escaper_Replace_clean. now right.
  - apply Escaper_Replace_unchanged.
  - apply Escaper_Replace_unchanged; apply Escaper_Replace_clean; [now left | now right].
Qed.

(** ** [Optional], the bounds of [Mult], [And], [Require] and [Set] *)
Section MoreCombinatorFacts.
Context {R : Type} `{SR : StateReader R} `{CP : !Checkpointing R} `{RE : RegexpEngine}.

(** X7.  [Optional(g)] calls [g] once.  It returns the one match of [g] in a
    sequence when [g] succeeds and the empty sequence when [g] fails
    recoverably, with the cursor as [g] left it; it passes a fatal error on.
    It never fails recoverably. *)
Theorem Optional_never_fails_recoverably (g : Grammar R) (sr : R) :
  Optional g sr
  = match g sr with
    | Panic => Panic
    | Return m None sr1 => Return (Slice [m]) None sr1
    | Return _ (Some err) sr1 =>
        if isFE err then Return Nil (Some err) sr1 else Return (Slice []) None sr1
    end
  /\ (forall m err sr', Optional g sr = Return m (Some err) sr' -> isFE err = true).
Proof.
  assert (E : Optional g sr
              = match g sr with
                | Panic => Panic
                | Return m None sr1 => Return (Slice [m]) None sr1
                | Return _ (Some err) sr1 =>
                    if isFE err then Return Nil (Some err) sr1
                    else Return (Slice []) None sr1
                end).
  { unfold Optional, Mult. cbn [Z.eqb Z.to_N for_N for_pos]. unfold mult_body.
    destruct (g sr) as [m [err|] sr1|]; try reflexivity.
    destruct (isFE err); reflexivity. }
  split; [exact E|].
  intros m err sr' H. rewrite E in H.
  destruct (g sr) as [m0 [err0|] sr1|]; try discriminate.
  destruct (isFE err0) eqn:Efe; [|discriminate].
  inversion H; subst. exact Efe.
Qed.

(** X8.  When [g] has succeeded [m] times, with [m] positive, [Mult(n, m, g)]
    stops without calling [g] again and succeeds with the [m] matches,
    whatever [n] is: a minimum above the maximum is not enforced. *)
Theorem Mult_stops_at_max (n m : Z) (g : Grammar R) (sr : R) (k : nat)
    (ms : list Match) (srk : R) :
  (0 < m)%Z ->
  Z.of_nat k = m ->
  apply_times g k sr = Some (ms, srk) ->
  Mult n m g sr = Return (Slice ms) None srk /\ Z.of_nat (length ms) = m.
Proof.
  intros Hpos Hk Happ. split.
  - apply (Mult_full n m g sr k ms srk Happ).
    unfold mult_bound. destruct (Z.eqb_spec m 0); lia.
  - now rewrite (apply_times_length _ _ _ _ _ Happ).
Qed.

(** X9.  With a negative [m] the loop has no turn: [Mult(n, m, g)] succeeds
    with the empty sequence and does not call [g], whatever [n] is. *)
Theorem Mult_negative_max (n m : Z) (g : Grammar R) (sr : R) :
  (m < 0)%Z -> Mult n m g sr = Return (Slice []) None sr.
Proof.
  intros Hneg. unfold Mult.
  destruct (Z.eqb_spec m 0) as [->|_]; [lia|].
  destruct m as [|p|p]; try lia. reflexivity.
Qed.

Lemma mult_loop_counts (state0 : state) (n : Z) (g : Grammar R) (j : nat) :
  forall i ms cur,
    i = Z.of_nat (length ms) ->
    match for_nat (mult_body state0 n g) j (i, ms, cur) with
    | inl (_, ms', _) => length ms' = length ms + j
    | inr (Return m None _) =>
        exists ms', m = Slice ms'
                    /\ length ms' < length ms + j
                    /\ (n <= Z.of_nat (length ms'))%Z
    | inr _ => True
    end.
Proof.
  induction j as [|j IH]; intros i ms cur Hi; cbn [for_nat].
  - lia.
  - unfold mult_body at 1.
    destruct (g cur) as [m0 [e0|] sr0|]; [| |exact I].
    + destruct (isFE e0); [exact I|].
      destruct (Z.ltb_spec i n); [exact I|].
      exists ms. split; [reflexivity|]. split; lia.
    + specialize (IH (i + 1)%Z (ms ++ [m0]) sr0).
      rewrite length_app in IH. cbn [length] in IH.
      specialize (IH ltac:(lia)).
      destruct (for_nat _ j ((i + 1)%Z, ms ++ [m0], sr0))
        as [[[i' ms'] sr']|[m [err|] sr'|]]; try exact I.
      * lia.
      * destruct IH as (ms' & -> & Hlt & Hn). exists ms'.
        split; [reflexivity|]. split; [lia | exact Hn].
Qed.

(** X10.  A success of [Mult(n, m, g)] returns a sequence that has at most as
    many elements as the loop has turns, and that has at least [n] elements
    or as many elements as the loop has turns. *)
Theorem Mult_success_length (n m : Z) (g : Grammar R) (sr : R) (x : Match) (sr' : R) :
  Mult n m g sr = Return x None sr' ->
  exists ms,
    x = Slice ms
    /\ (Z.of_nat (length ms) <= Z.max 0 (mult_bound m))%Z
    /\ ((n <= Z.of_nat (length ms))%Z
        \/ Z.of_nat (length ms) = Z.max 0 (mult_bound m)).
Proof.
  intros H. rewrite Mult_unfold in H.
  pose proof (mult_loop_counts (State sr) n g (Z.to_nat (mult_bound m)) 0%Z [] sr eq_refl) as L.
  destruct (for_nat _ (Z.to_nat (mult_bound m)) (0%Z, [], sr))
    as [[[i' ms'] sr1]|out].
  - inversion H; subst. exists ms'. cbn [length] in L.
    split; [reflexivity|]. split; [lia | right; lia].
  - subst out. destruct L as (ms' & -> & Hlt & Hn). cbn [length] in Hlt.
    exists ms'. split; [reflexivity|]. split; [lia | now left].
Qed.

Lemma and_loop_length (state0 : state) (gs : list (Grammar R)) :
  forall matches sr m sr',
    and_loop state0 gs matches sr = Return m None sr' ->
    exists ms, m = Slice ms /\ length ms <= length matches + length gs.
Proof.
  induction gs as [|g gs IH]; intros matches sr m sr' H; cbn [and_loop] in H.
  - inversion H; subst. exists matches. split; [reflexivity | lia].
  - destruct (g sr) as [m0 [err0|] sr0|]; try discriminate.
    destruct (IH _ _ _ _ H) as (ms & -> & Hlen).
    exists ms. split; [reflexivity|]. cbn [length].
    destruct m0; try rewrite length_app in Hlen; cbn [length] in Hlen; lia.
Qed.

(** X11.  A success of [And(gs...)] returns a sequence that holds no nil and
    has at most one element for each grammar of [gs]. *)
Theorem And_success_sequence (gs : list (Grammar R)) (sr : R) (m : Match) (sr' : R) :
  And gs sr = Return m None sr' ->
  exists ms, m = Slice ms /\ ~ In Nil ms /\ length ms <= length gs.
Proof.
  intros H.
  destruct (And_no_Nil gs sr m sr' H) as (ms & -> & Hno).
  unfold And in H. destruct (and_loop_length _ _ _ _ _ _ H) as (ms' & E & Hlen).
  inversion E; subst ms'. exists ms. repeat split; [exact Hno | exact Hlen].
Qed.

(** X12.  [Require(gs...)] succeeds as [And(gs...)] does.  When it fails, the
    error is the error of [And] wrapped in a [fatalError], no match is
    returned and the cursor is back in its state at entry: [Require] never
    fails recoverably. *)
Theorem Require_commits (gs : list (Grammar R)) (sr : R) :
  (forall m sr', Require_ gs sr = Return m None sr' <-> And gs sr = Return m None sr')
  /\ (forall m err sr',
        Require_ gs sr = Return m (Some err) sr' ->
        m = Nil /\ State sr' = State sr
        /\ exists m0 err0,
             err = fatalError err0 /\ And gs sr = Return m0 (Some err0) sr').
Proof.
  split.
  - intros m sr'. unfold Require_.
    destruct (And gs sr) as [m0 [err0|] sr0|]; split; intros H;
      try discriminate; exact H.
  - intros m err sr' H. unfold Require_ in H.
    destruct (And gs sr) as [m0 [err0|] sr0|] eqn:E; try discriminate.
    inversion H; subst.
    split; [reflexivity|]. split; [|now exists m0, err0].
    unfold And in E. now apply and_loop_error in E.
Qed.
End MoreCombinatorFacts.

(** [Mult(3, 2, Lit("a"))] over [aaa] succeeds with two matches. *)
Lemma Mult_stops_at_max_witness :
  Mult 3 2 (Lit "a") (reader "aaa")
    = Return (Slice [Str "a"; Str "a"]) None (mkReader (input (reader "aaa")) 2)
  /\ Z.of_nat (length [Str "a"; Str "a"]) = 2%Z.
Proof.
  exact (Mult_stops_at_max (R := textReader) 3 2 (Lit "a") (reader "aaa") 2
           [Str "a"; Str "a"] (mkReader (input (reader "aaa")) 2)
           eq_refl eq_refl eq_refl).
Defined.

(** [Mult(1, -1, Lit("a"))] over [a] succeeds with no match and reads nothing. *)
Lemma Mult_negative_max_witness :
  Mult 1 (-1) (Lit "a") (reader "a") = Return (Slice []) None (reader "a").
Proof.
  exact (Mult_negative_max (R := textReader) 1 (-1) (Lit "a") (reader "a") eq_refl).
Defined.

(** [Mult(2, 4, Lit("a"))] over [aaab]: three elements, between 2 and 4. *)
Lemma Mult_success_length_witness :
  exists ms,
    Slice [Str "a"; Str "a"; Str "a"] = Slice ms
    /\ (Z.of_nat (length ms) <= Z.max 0 (mult_bound 4))%Z
    /\ ((2 <= Z.of_nat (length ms))%Z \/ Z.of_nat (length ms) = Z.max 0 (mult_bound 4)).
Proof.
  exact (Mult_success_length (R := textReader) 2 4 (Lit "a") (reader "aaab")
           (Slice [Str "a"; Str "a"; Str "a"]) (mkReader (input (reader "aaab")) 3)
           eq_refl).
Defined.

(** [And(Lit("a"), Ignore(Lit("b")), Lit("c"))] over [abc]: two elements for
    three grammars. *)
Lemma And_success_sequence_witness :
  exists ms,
    Slice [Str "a"; Str "c"] = Slice ms /\ ~ In Nil ms /\ length ms <= 3.
Proof.
  exact (And_success_sequence (R := textReader)
           [Lit "a"; Ignore (Lit "b"); Lit "c"] (reader "abc")
           (Slice [Str "a"; Str "c"]) (mkReader (input (reader "abc")) 3) eq_refl).
Defined.

(** [Require(Lit("a"), Lit("b"))] over [ac] fails fatally and is back at 0. *)
Lemma Require_commits_witness :
  Require_ [Lit "a"; Lit "b"] (reader "ac")
    = Return Nil (Some (fatalError (errLit "b"%char "c"%char))) (reader "ac")
  /\ Nil = Nil /\ State (reader "ac") = State (reader "ac")
  /\ exists m0 err0,
       fatalError (errLit "b"%char "c"%char) = fatalError err0
       /\ And [Lit "a"; Lit "b"] (reader "ac") = Return m0 (Some err0) (reader "ac").
Proof.
  split; [reflexivity|].
  exact (proj2 (Require_commits (R := textReader) [Lit "a"; Lit "b"] (reader "ac"))
           Nil (fatalError (errLit "b"%char "c"%char)) (reader "ac") eq_refl).
Defined.

Section SetAndSymmetry.
Context {R : Type} `{SR : StateReader R} `{CP : !Checkpointing R} `{RE : RegexpEngine}.

(** X13.  When the class of [set] compiles to [re], [Set(set)] does not
    panic and calls [ReadRune] once.  It succeeds exactly when the rune read,
    as a string, matches [re]; it then returns that string and leaves the
    cursor after the rune.  Otherwise it fails recoverably, with no match
    and the cursor back in its state at entry. *)
Theorem Set_reads_one_rune (set : string) (re : Regexp) (sr : R) :
  Compile ("[" ++ Escaper_Replace set ++ "]") = Some re ->
  Set_ set sr <> Panic
  /\ (forall m sr',
        Set_ set sr = Return m None sr'
        <-> exists r, ReadRune sr = (inl r, sr')
                      /\ MatchString re (String r EmptyString) = true
                      /\ m = Str (String r EmptyString))
  /\ (forall m err sr',
        Set_ set sr = Return m (Some err) sr' ->
        m = Nil /\ recoverable err /\ State sr' = State sr).
Proof.
  intros Hc. unfold Set_. rewrite Hc.
  destruct (ReadRune sr) as [[r|msg] sr1].
  - destruct (MatchString re (String r EmptyString)) eqn:Em.
    + split; [discriminate|]. split.
      * intros m sr'. split.
        -- intros H. inversion H; subst. now exists r.
        -- intros (r' & Hr & _ & ->). inversion Hr; subst. reflexivity.
      * intros m err sr' H. discriminate H.
    + split; [discriminate|]. split.
      * intros m sr'. split; [discriminate|].
        intros (r' & Hr & Hm & _). inversion Hr; subst. congruence.
      * intros m err sr' H. inversion H; subst.
        repeat split. apply State_RestoreState.
  - split; [discriminate|]. split.
    + intros m sr'. split; [discriminate|].
      intros (r' & Hr & _). discriminate Hr.
    + intros m err sr' H. inversion H; subst.
      repeat split. apply State_RestoreState.
Qed.

(** X14.  Checkpoint symmetry: when a grammar built without [Node] fails
    recoverably, the cursor is in the state it had before the call. *)
Theorem checkpoint_symmetry_without_Node
    (e : grammar) (sr : R) (m : Match) (err : error) (sr' : R) :
  node_free e = true ->
  build e sr = Return m (Some err) sr' ->
  isFE err = false ->
  State sr' = State sr.
Proof.
  intros Hfree H Hrec. exact (node_free_backs_out e Hfree sr m err sr' H Hrec).
Qed.

(** X15.  [And], [Or] and [Mult] restore the cursor on a recoverable
    failure whatever their members do, members that leave the cursor moved
    when they fail included. *)
Theorem composites_restore_the_cursor
    (gs : list (Grammar R)) (g : Grammar R) (n mx : Z)
    (sr : R) (m : Match) (err : error) (sr' : R) :
  isFE err = false ->
  (And gs sr = Return m (Some err) sr' -> State sr' = State sr)
  /\ (Or gs sr = Return m (Some err) sr' -> State sr' = State sr)
  /\ (Mult n mx g sr = Return m (Some err) sr' -> State sr' = State sr).
Proof.
  intros Hrec. split; [|split]; intros H.
  - exact (And_backs_out gs sr m err sr' H Hrec).
  - exact (Or_backs_out gs sr m err sr' H Hrec).
  - exact (Mult_backs_out n mx g sr m err sr' H Hrec).
Qed.
End SetAndSymmetry.

(** [Set("a-c")] over [b]. *)
Lemma Set_reads_one_rune_witness :
  Set_ "a-c" (reader "b") <> Panic
  /\ Set_ "a-c" (reader "b") = Return (Str "b") None (mkReader (input (reader "b")) 1).
Proof.
  pose proof (Set_reads_one_rune (R := textReader) "a-c"
                (mkClass false [("a"%char, "c"%char)]) (reader "b") eq_refl)
    as (Hnp & Hok & _).
  split; [exact Hnp|].
  apply Hok. exists "b"%char. repeat split.
Defined.

(** [Or(And(Lit("a"), Lit("b")), Tag("t", Set("x")))] over [ac] fails
    recoverably and is back at 0. *)
Lemma checkpoint_symmetry_without_Node_witness :
  build (GOr [GAnd [GLit "a"; GLit "b"]; GTag "t" (GSet "x")]) (reader "ac")
    = Return Nil (Some (errOr [errLit "b"%char "c"%char; errSet "x" "a"])) (reader "ac")
  /\ State (reader "ac") = State (reader "ac").
Proof.
  split; [reflexivity|].
  exact (checkpoint_symmetry_without_Node (R := textReader)
           (GOr [GAnd [GLit "a"; GLit "b"]; GTag "t" (GSet "x")])
           (reader "ac") Nil
           (errOr [errLit "b"%char "c"%char; errSet "x" "a"])
           (reader "ac") eq_refl eq_refl eq_refl).
Defined.

(** A [Node] whose transform fails after [Lit("a")] has read [a] leaves the
    cursor at 1; [And], [Or] and [Mult(1, 0, ...)] over it fail recoverably
    with the cursor back at 0. *)
Lemma composites_restore_the_cursor_witness :
  let g := Node (Lit "a") (fun _ => (Nil, Some (errorString "no node"))) in
  g (reader "a") = Return Nil (Some (errorString "no node")) (mkReader (input (reader "a")) 1)
  /\ And [g] (reader "a") = Return Nil (Some (errorString "no node")) (reader "a")
  /\ Or [g] (reader "a") = Return Nil (Some (errOr [errorString "no node"])) (reader "a")
  /\ Mult 1 0 g (reader "a") = Return Nil (Some (errorString "no node")) (reader "a")
  /\ State (reader "a") = State (reader "a").
Proof.
  cbv zeta.
  split; [reflexivity|]. split; [reflexivity|]. split; [reflexivity|].
  split; [reflexivity|].
  pose proof (composites_restore_the_cursor (R := textReader)
                [Node (Lit "a") (fun _ => (Nil, Some (errorString "no node")))]
                (Node (Lit "a") (fun _ => (Nil, Some (errorString "no node"))))
                1 0 (reader "a") Nil (errorString "no node") (reader "a") eq_refl)
    as (HAnd & _ & HMult).
  pose proof (composites_restore_the_cursor (R := textReader)
                [Node (Lit "a") (fun _ => (Nil, Some (errorString "no node")))]
                (Node (Lit "a") (fun _ => (Nil, Some (errorString "no node"))))
                1 0 (reader "a") Nil (errOr [errorString "no node"]) (reader "a") eq_refl)
    as (_ & HOr & _).
  exact (eq_trans (HAnd eq_refl) (eq_trans (eq_sym (HOr eq_refl)) (HMult eq_refl))).
Defined.

(** ** [String] and the text consumed *)

(** X16.  Over a text cursor, [String] of the match of a grammar built
    without [Node], [Tag] and [Ignore] is the text the grammar has consumed,
    and the cursor has not moved back. *)
Theorem String_gives_back_consumed_text `{RE : RegexpEngine}
    (e : grammar) (sr : textReader) (m : Match) (sr' : textReader) :
  plain e = true ->
  build e sr = Return m None sr' ->
  pos sr <= pos sr' /\ String_ m = consumed sr sr'.
Proof.
  intros Hp H. destruct (plain_reads_back e Hp _ _ _ _ H) as (_ & Hle & Htxt).
  split; assumption.
Qed.

(** [And(Mult(0, 0, Or(Lit("ab"), Set("x-z"))), Optional(Lit("!")))] over
    [abxab!?] consumes [abxab!]. *)
Lemma String_gives_back_consumed_text_witness :
  let e := GAnd [GMult 0 0 (GOr [GLit "ab"; GSet "x-z"]); GOptional (GLit "!")] in
  let m := Slice [Slice [Str "ab"; Str "x"; Str "ab"]; Slice [Str "!"]] in
  build e (reader "abxab!?") = Return m None (mkReader (input (reader "abxab!?")) 6)
  /\ String_ m = "abxab!".
Proof.
  cbv zeta. split; [reflexivity|].
  exact (proj2 (String_gives_back_consumed_text (RE := classEngine)
                  (GAnd [GMult 0 0 (GOr [GLit "ab"; GSet "x-z"]); GOptional (GLit "!")])
                  (reader "abxab!?")
                  (Slice [Slice [Str "ab"; Str "x"; Str "ab"]; Slice [Str "!"]])
                  (mkReader (input (reader "abxab!?")) 6) eq_refl eq_refl)).
Defined.

(** X17.  [String] of a tree without tagged matches is the concatenation,
    from left to right, of the strings in it; nil and other values count for
    nothing. *)
Theorem String_concatenates_scalars (m : Match) :
  tag_free m = true -> String_ m = String.concat EmptyString (scalars m).
Proof. apply String_tag_free. Qed.

Lemma String_concatenates_scalars_witness :
  String_ (Slice [Str "a"; Nil; Slice [Str "b"; Value "v"]; Str "c"]) = "abc".
Proof.
  exact (String_concatenates_scalars
           (Slice [Str "a"; Nil; Slice [Str "b"; Value "v"]; Str "c"]) eq_refl).
Defined.

(** ** The cursor stays between the entry position and the end of the input *)
Section KeepsForward.
Context `{RE : RegexpEngine}.

Lemma ReadRune_within (sr : textReader) :
  match ReadRune sr with
  | (inl _, sr1) =>
      input sr1 = input sr /\ pos sr1 = pos sr + 1 /\ pos sr < length (input sr)
  | (inr _, sr1) => sr1 = sr
  end.
Proof.
  cbn [ReadRune textReader_StateReader].
  destruct (nth_error (input sr) (pos sr)) as [r|] eqn:E; [|reflexivity].
  cbn [input pos]. repeat split.
  apply nth_error_Some. congruence.
Qed.

Lemma lit_loop_forward (state0 : nat) (text : string) (rs : list rune) :
  forall cur m err sr',
    state0 <= pos cur ->
    lit_loop state0 text rs cur = Return m err sr' ->
    input sr' = input cur
    /\ state0 <= pos sr'
    /\ (pos cur <= length (input cur) -> pos sr' <= length (input cur)).
Proof.
  induction rs as [|r rs IH]; intros cur m err sr' Hst H; cbn [lit_loop] in H.
  - inversion H; subst. repeat split; [exact Hst | trivial].
  - pose proof (ReadRune_within cur) as Hr.
    destruct (ReadRune cur) as [[rr|msg] sr1].
    + destruct Hr as (Hin & Hpos & Hlt).
      destruct (negb (Ascii.eqb rr r)).
      * inversion H; subst. cbn [RestoreState textReader_StateReader input pos].
        repeat split; [exact Hin | lia | intros; lia].
      * destruct (IH sr1 _ _ _ ltac:(lia) H) as (Hin' & Hle & Hup).
        rewrite Hin in Hin', Hup.
        repeat split; [exact Hin' | exact Hle | intros; apply Hup; lia].
    + subst sr1. inversion H; subst. cbn [RestoreState textReader_StateReader input pos].
      repeat split; [lia | intros; lia].
Qed.

Lemma Lit_keeps_forward (text : string) : keeps_forward (Lit text).
Proof.
  intros sr m err sr' H. unfold Lit in H.
  exact (lit_loop_forward _ _ _ _ _ _ _ (le_n _) H).
Qed.

Lemma Set_keeps_forward (set : string) : keeps_forward (Set_ set).
Proof.
  intros sr m err sr' H. unfold Set_ in H.
  pose proof (ReadRune_within sr) as Hr.
  destruct (ReadRune sr) as [[r|msg] sr1].
  - destruct Hr as (Hin & Hpos & Hlt).
    destruct (Compile _) as [re|]; [|discriminate].
    destruct (MatchString re _); inversion H; subst;
      cbn [RestoreState textReader_StateReader State input pos];
      repeat split; try exact Hin; try lia; intros; lia.
  - subst sr1. inversion H; subst.
    cbn [RestoreState textReader_StateReader State input pos].
    repeat split; [lia | trivial].
Qed.

Lemma and_loop_forward (state0 : nat) (gs : list (Grammar textReader)) :
  Forall keeps_forward gs ->
  forall matches cur m err sr',
    state0 <= pos cur ->
    and_loop state0 gs matches cur = Return m err sr' ->
    input sr' = input cur
    /\ state0 <= pos sr'
    /\ (pos cur <= length (input cur) -> pos sr' <= length (input cur)).
Proof.
  induction 1 as [|g gs Hg _ IH]; intros matches cur m err sr' Hst H; cbn [and_loop] in H.
  - inversion H; subst. repeat split; [exact Hst | trivial].
  - destruct (g cur) as [m0 [e0|] sr0|] eqn:Eg; try discriminate.
    + destruct (Hg _ _ _ _ Eg) as (Hin & Hle & Hup).
      inversion H; subst. cbn [RestoreState textReader_StateReader input pos].
      repeat split; [exact Hin | lia | intros; lia].
    + destruct (Hg _ _ _ _ Eg) as (Hin & Hle & Hup).
      destruct (IH _ sr0 _ _ _ ltac:(lia) H) as (Hin' & Hle' & Hup').
      rewrite Hin in Hin', Hup'.
      repeat split; [exact Hin' | exact Hle' | intros; apply Hup'; now apply Hup].
Qed.

Lemma And_keeps_forward (gs : list (Grammar textReader)) :
  Forall keeps_forward gs -> keeps_forward (And gs).
Proof.
  intros Hgs sr m err sr' H. unfold And in H.
  exact (and_loop_forward _ _ Hgs _ _ _ _ _ (le_n _) H).
Qed.

Lemma or_loop_forward (state0 : nat) (gs : list (Grammar textReader)) :
  Forall keeps_forward gs ->
  forall errs cur m err sr',
    state0 <= pos cur ->
    or_loop state0 gs errs cur = Return m err sr' ->
    input sr' = input cur
    /\ state0 <= pos sr'
    /\ (pos cur <= length (input cur) -> pos sr' <= length (input cur)).
Proof.
  induction 1 as [|g gs Hg _ IH]; intros errs cur m err sr' Hst H; cbn [or_loop] in H.
  - inversion H; subst. repeat split; [exact Hst | trivial].
  - destruct (g cur) as [m0 [e0|] sr0|] eqn:Eg; try discriminate.
    + destruct (Hg _ _ _ _ Eg) as (Hin & Hle & Hup).
      destruct (isFE e0).
      * inversion H; subst. repeat split; [exact Hin | lia | exact Hup].
      * destruct (IH _ (mkReader (input sr0) state0) _ _ _ (le_n _) H)
          as (Hin' & Hle' & Hup').
        cbn [input pos] in Hin', Hup'. rewrite Hin in Hin', Hup'.
        repeat split; [exact Hin' | exact Hle' | intros; apply Hup'; lia].
    + destruct (Hg _ _ _ _ Eg) as (Hin & Hle & Hup).
      inversion H; subst. repeat split; [exact Hin | lia | exact Hup].
Qed.

Lemma Or_keeps_forward (gs : list (Grammar textReader)) :
  Forall keeps_forward gs -> keeps_forward (Or gs).
Proof.
  intros Hgs sr m err sr' H. unfold Or in H.
  exact (or_loop_forward _ _ Hgs _ _ _ _ _ (le_n _) H).
Qed.

Lemma mult_loop_forward (state0 : nat) (n : Z) (g : Grammar textReader) :
  keeps_forward g ->
  forall j i ms cur,
    state0 <= pos cur ->
    match for_nat (mult_body state0 n g) j (i, ms, cur) with
    | inr (Return _ _ sr') | inl (_, _, sr') =>
        input sr' = input cur
        /\ state0 <= pos sr'
        /\ (pos cur <= length (input cur) -> pos sr' <= length (input cur))
    | inr Panic => True
    end.
Proof.
  intros Hg. induction j as [|j IH]; intros i ms cur Hst; cbn [for_nat].
  - repeat split; [exact Hst | trivial].
  - unfold mult_body at 1.
    destruct (g cur) as [m0 [e0|] sr0|] eqn:Eg; [| |exact I].
    + destruct (Hg _ _ _ _ Eg) as (Hin & Hle & Hup).
      destruct (isFE e0); [repeat split; [exact Hin | lia | exact Hup]|].
      destruct (i <? n)%Z.
      * cbn [RestoreState textReader_StateReader input pos].
        repeat split; [exact Hin | lia | intros; lia].
      * repeat split; [exact Hin | lia | exact Hup].
    + destruct (Hg _ _ _ _ Eg) as (Hin & Hle & Hup).
      specialize (IH (i + 1)%Z (ms ++ [m0]) sr0 ltac:(lia)).
      destruct (for_nat _ j ((i + 1)%Z, ms ++ [m0], sr0))
        as [[[i' ms'] sr']|[m err sr'|]]; [| |exact I];
        destruct IH as (Hin' & Hle' & Hup'); rewrite Hin in Hin', Hup';
        (repeat split; [exact Hin' | exact Hle' | intros; apply Hup'; now apply Hup]).
Qed.

Lemma Mult_keeps_forward (n m : Z) (g : Grammar textReader) :
  keeps_forward g -> keeps_forward (Mult n m g).
Proof.
  intros Hg sr x err sr' H. rewrite Mult_unfold in H.
  pose proof (mult_loop_forward (pos sr) n g Hg (Z.to_nat (mult_bound m)) 0%Z [] sr (le_n _))
    as L.
  change (State sr) with (pos sr) in H.
  destruct (for_nat _ (Z.to_nat (mult_bound m)) (0%Z, [], sr))
    as [[[i' ms'] sr1]|out].
  - inversion H; subst. exact L.
  - subst out. exact L.
Qed.

Lemma wrapper_keeps_forward (g w : Grammar textReader) :
  keeps_forward g ->
  (forall sr m err sr',
      w sr = Return m err sr' -> exists m0 err0, g sr = Return m0 err0 sr') ->
  keeps_forward w.
Proof.
  intros Hg Hw sr m err sr' H.
  destruct (Hw _ _ _ _ H) as (m0 & err0 & E). exact (Hg _ _ _ _ E).
Qed.

Lemma build_keeps_forward (e : grammar) : keeps_forward (build (R := textReader) e).
Proof.
  assert (members : forall gs,
             Forall (fun e => keeps_forward (build (R := textReader) e)) gs ->
             Forall keeps_forward (map (build (R := textReader)) gs)).
  { induction 1; cbn [map]; constructor; assumption. }
  induction e as [g node IH | g IH | set | text | gs IH | gs IH | n m g IH
                 | g IH | g IH | gs IH | tag g IH] using grammar_nested_ind;
    cbn [build].
  - apply (wrapper_keeps_forward (build g)); [exact IH|].
    intros sr m err sr' H. unfold Node in H.
    destruct (build g sr) as [m0 [e0|] sr0|]; try discriminate.
    + inversion H; subst. now exists m0, (Some e0).
    + destruct (node m0) as [v e1]. inversion H; subst. now exists m0, None.
  - exact IH.
  - apply Set_keeps_forward.
  - apply Lit_keeps_forward.
  - apply And_keeps_forward. now apply members.
  - apply Or_keeps_forward. now apply members.
  - now apply Mult_keeps_forward.
  - now apply Mult_keeps_forward.
  - apply (wrapper_keeps_forward (build g)); [exact IH|].
    intros sr m err sr' H. unfold Ignore in H.
    destruct (build g sr) as [m0 [e0|] sr0|]; try discriminate;
      inversion H; subst; eauto.
  - apply (wrapper_keeps_forward (And (map build gs)));
      [apply And_keeps_forward; now apply members|].
    intros sr m err sr' H. unfold Require_ in H.
    destruct (And (map build gs) sr) as [m0 [e0|] sr0|]; try discriminate;
      inversion H; subst; eauto.
  - apply (wrapper_keeps_forward (build g)); [exact IH|].
    intros sr m err sr' H. unfold Tag in H.
    destruct (build g sr) as [m0 [e0|] sr0|]; try discriminate;
      inversion H; subst; eauto.
Qed.

(** X18.  Over a text cursor that is within its input, a grammar built from
    the combinators, however it returns, leaves the input as it was and the
    cursor between its position at entry and the end of the input. *)
Theorem cursor_stays_in_range
    (e : grammar) (sr : textReader) (m : Match) (err : option error) (sr' : textReader) :
  pos sr <= length (input sr) ->
  build e sr = Return m err sr' ->
  input sr' = input sr /\ pos sr <= pos sr' <= length (input sr).
Proof.
  intros Hin H. destruct (build_keeps_forward e _ _ _ _ H) as (Hi & Hle & Hup).
  split; [exact Hi|]. split; [exact Hle | now apply Hup].
Qed.
End KeepsForward.

(** [Or(Require(Lit("ab")), Lit("a"))] over [ac] fails fatally; the cursor is
    at 0, within the two runes of the input. *)
Lemma cursor_stays_in_range_witness :
  build (GOr [GRequire [GLit "ab"]; GLit "a"]) (reader "ac")
    = Return Nil (Some (fatalError (errLit "b"%char "c"%char))) (reader "ac")
  /\ input (reader "ac") = input (reader "ac")
  /\ 0 <= 0 <= 2.
Proof.
  split; [reflexivity|].
  exact (cursor_stays_in_range (RE := classEngine)
           (GOr [GRequire [GLit "ab"]; GLit "a"]) (reader "ac") Nil
           (Some (fatalError (errLit "b"%char "c"%char))) (reader "ac")
           (Nat.le_0_l 2) eq_refl).
Defined.

(** ** A literal in two parts *)
Section LitParts.
Context {R : Type} `{SR : StateReader R}.

Lemma list_ascii_of_string_app (a b : string) :
  list_ascii_of_string (a ++ b) = list_ascii_of_string a ++ list_ascii_of_string b.
Proof. induction a as [|c a IH]; simpl; [reflexivity | now rewrite IH]. Qed.

Lemma read_runes_app (l1 l2 : list rune) :
  forall (sr sr' : R),
    read_runes (length (l1 ++ l2)) sr = Some (l1 ++ l2, sr')
    <-> exists sr1, read_runes (length l1) sr = Some (l1, sr1)
                    /\ read_runes (length l2) sr1 = Some (l2, sr').
Proof.
  induction l1 as [|r l1 IH]; intros sr sr'; cbn [app length read_runes].
  - split.
    + intros H. now exists sr.
    + intros (sr1 & H1 & H2). inversion H1; subst. exact H2.
  - destruct (ReadRune sr) as [[rr|msg] sr0].
    + split.
      * intros H.
        destruct (read_runes (length (l1 ++ l2)) sr0) as [[rs sr2]|] eqn:E; [|discriminate].
        inversion H; subst. apply IH in E as (sr1 & E1 & E2).
        exists sr1. now rewrite E1.
      * intros (sr1 & H1 & H2).
        destruct (read_runes (length l1) sr0) as [[rs sr2]|] eqn:E; [|discriminate].
        inversion H1; subst.
        assert (E' : read_runes (length (l1 ++ l2)) sr0 = Some (l1 ++ l2, sr'))
          by (apply IH; now exists sr1).
        now rewrite E'.
    + split; [discriminate|]. intros (sr1 & H1 & _). discriminate H1.
Qed.

Lemma Lit_success_reads (text : string) (sr : R) (m : Match) (sr' : R) :
  Lit text sr = Return m None sr'
  <-> m = Str text
      /\ read_runes (length (list_ascii_of_string text)) sr
         = Some (list_ascii_of_string text, sr').
Proof.
  unfold Lit. split.
  - apply lit_loop_success.
  - intros [-> H].
    rewrite <- (app_nil_r (list_ascii_of_string text)) at 1.
    now rewrite (lit_loop_prefix _ _ _ _ _ _ H).
Qed.

(** X19.  A literal of ASCII characters may be given in two parts: for texts
    [a] and [b] of ASCII characters, where each character is one byte and
    one rune, [Lit] of the text [a ++ b] succeeds, and leaves the cursor
    [sr'], exactly when the sequence of [Lit(a)] and [Lit(b)] does. *)
Theorem Lit_in_two_parts (a b : string) (sr sr' : R) :
  ascii_text a = true ->
  ascii_text b = true ->
  Lit (a ++ b) sr = Return (Str (a ++ b)) None sr'
  <-> And [Lit a; Lit b] sr = Return (Slice [Str a; Str b]) None sr'.
Proof.
  intros _ _.
  rewrite Lit_success_reads, list_ascii_of_string_app, read_runes_app.
  unfold And. cbn [and_loop]. split.
  - intros (_ & sr1 & H1 & H2).
    assert (E1 : Lit a sr = Return (Str a) None sr1) by now apply Lit_success_reads.
    assert (E2 : Lit b sr1 = Return (Str b) None sr') by now apply Lit_success_reads.
    rewrite E1. cbn [app]. now rewrite E2.
  - intros H. split; [reflexivity|].
    destruct (Lit a sr) as [m1 [e1|] sr1|] eqn:E1; try discriminate.
    apply Lit_success_reads in E1 as [-> H1]. cbn [app] in H.
    destruct (Lit b sr1) as [m2 [e2|] sr2|] eqn:E2; try discriminate.
    apply Lit_success_reads in E2 as [-> H2]. cbn [app] in H.
    inversion H; subst. now exists sr1.
Qed.
End LitParts.

(** [Lit("foo")] over [foobar] and [And(Lit("fo"), Lit("o"))] over [foobar]
    both succeed and leave the cursor at 3. *)
Lemma Lit_in_two_parts_witness :
  ascii_text "fo" = true /\ ascii_text "o" = true
  /\ Lit "foo" (reader "foobar")
     = Return (Str "foo") None (mkReader (input (reader "foobar")) 3)
  /\ And [Lit "fo"; Lit "o"] (reader "foobar")
     = Return (Slice [Str "fo"; Str "o"]) None (mkReader (input (reader "foobar")) 3).
Proof.
  split; [reflexivity|]. split; [reflexivity|]. split; [reflexivity|].
  exact (proj1 (Lit_in_two_parts (R := textReader) "fo" "o" (reader "foobar")
                  (mkReader (input (reader "foobar")) 3) eq_refl eq_refl) eq_refl).
Defined.
